(** * js-assignments: brace expansion, zig-zag matrix and CSS selector builder

    A shallow embedding of [src/task/10-katas-1-tasks.js] ([expandBraces],
    [getZigZagMatrix], [canDominoesMakeRow], [extractRanges],
    [createCompassPoints]) and of [src/task/08-objects-tasks.js]
    ([CssSelector], [cssSelectorBuilder]), with the properties the
    specification states about them and further properties read off the
    code.

    Conventions.
    - A JavaScript string is the list of its code units ([jsstring]); [s[i]]
      is list lookup, [s.length] is [length], [s.slice(a, b)] is [slice].
    - A call that may throw returns a [completion]: [Normal v] or
      [Throw msg].  Loops of the source that are not structural are run on
      a step budget; [OutOfFuel] marks an exhausted budget and is proved
      unreachable for the budgets the definitions use. *)

From Stdlib Require Import Ascii String ZArith QArith Lia ZifyNat DecimalString.
From stdpp Require Import gmap strings list.

Open Scope Z_scope.
Open Scope nat_scope.
Open Scope list_scope.

(** ** JavaScript strings and completions *)

Abbreviation jsstring := (list ascii).

(** Literals: [js "abc"] is the code-unit list of the string ["abc"]. *)
Definition js (s : string) : jsstring := list_ascii_of_string s.

(** [s.slice(a, b)] for [0 <= a] and [0 <= b]: the units at the indices
    [a <= k < b], both ends clamped to the length. *)
Definition slice (s : jsstring) (a b : nat) : jsstring := take (b - a) (drop a s).

(** [s.slice(a)]. *)
Definition slice_from (s : jsstring) (a : nat) : jsstring := drop a s.

Inductive completion (A : Type) : Type :=
| Normal (v : A)
| Throw (msg : string)
| OutOfFuel.
Arguments Normal {A} v.
Arguments Throw {A} msg.
Arguments OutOfFuel {A}.

Definition open_brace : ascii := "{"%char.
Definition close_brace : ascii := "}"%char.
Definition comma : ascii := ","%char.

(** ** expandBraces *)

Module Braces.

(** [splitCommaSafe]: the [for (let ch of s)] loop, with its three
    variables [result], [braceLevel] and [current]; the final
    [result.push(current)] is the [nil] case.  The source iterates by
    code point; the three characters tested are single code units and
    [current += ch] puts every unit back in order, so the loop is the
    same unit by unit. *)
Fixpoint splitCommaSafe_loop (chars : jsstring) (result : list jsstring)
    (braceLevel : Z) (current : jsstring) : list jsstring :=
  match chars with
  | [] => result ++ [current]
  | ch :: rest =>
      if bool_decide (ch = comma) && bool_decide (braceLevel = 0%Z)
      then splitCommaSafe_loop rest (result ++ [current]) braceLevel []
      else
        let braceLevel1 :=
          if bool_decide (ch = open_brace) then (braceLevel + 1)%Z else braceLevel in
        let braceLevel2 :=
          if bool_decide (ch = close_brace) then (braceLevel1 - 1)%Z else braceLevel1 in
        splitCommaSafe_loop rest result braceLevel2 (current ++ [ch])
  end.

Definition splitCommaSafe (s : jsstring) : list jsstring :=
  splitCommaSafe_loop s [] 0%Z [].

(** The inner [while (i < s.length && level > 0)] loop of [expand]: returns
    the values of [i] and [level] at loop exit. *)
Fixpoint find_close (fuel : nat) (s : jsstring) (i : nat) (level : Z)
    : option (nat * Z) :=
  if bool_decide (i < length s) && bool_decide (0 < level)%Z then
    match fuel with
    | 0 => None
    | S fuel' =>
        let level' :=
          if bool_decide (s !! i = Some open_brace) then (level + 1)%Z
          else if bool_decide (s !! i = Some close_brace) then (level - 1)%Z
          else level in
        find_close fuel' s (i + 1) level'
    end
  else Some (i, level).

(** The two nested [for ... of] loops: for every variant, [expand(suffix)]
    is called again and each of its strings is pushed onto [expanded]. *)
Fixpoint for_variants (expand_rec : jsstring -> completion (list jsstring))
    (prefix suffix : jsstring) (variants : list jsstring)
    (expanded : list jsstring) : completion (list jsstring) :=
  match variants with
  | [] => Normal expanded
  | variant :: rest =>
      match expand_rec suffix with
      | Normal tails =>
          for_variants expand_rec prefix suffix rest
            (expanded ++ map (fun tail => prefix ++ variant ++ tail) tails)
      | Throw msg => Throw msg
      | OutOfFuel => OutOfFuel
      end
  end.

(** The body of [if (s[i] === '{') { ... }], entered with [openIndex = i].
    When [level] is 0 at the exit of the inner loop, [i >= openIndex + 2],
    so [i - 1] is not negative. *)
Definition expand_group (expand_rec : jsstring -> completion (list jsstring))
    (s : jsstring) (openIndex : nat) : completion (list jsstring) :=
  match find_close (length s) s (openIndex + 1) 1%Z with
  | None => OutOfFuel
  | Some (i, level) =>
      if bool_decide (level ≠ 0%Z) then Throw "Unbalanced braces"
      else
        let inner := slice s (openIndex + 1) (i - 1) in
        let variants := splitCommaSafe inner in
        let prefix := slice s 0 openIndex in
        let suffix := slice_from s i in
        for_variants expand_rec prefix suffix variants []
  end.

(** The outer [while (i < s.length)] loop of [expand].  (The [stack]
    array the source declares is never used.) *)
Fixpoint expand_scan (expand_rec : jsstring -> completion (list jsstring))
    (fuel : nat) (s : jsstring) (i : nat) : completion (list jsstring) :=
  if bool_decide (i < length s) then
    match fuel with
    | 0 => OutOfFuel
    | S fuel' =>
        if bool_decide (s !! i = Some open_brace) then expand_group expand_rec s i
        else expand_scan expand_rec fuel' s (i + 1)
    end
  else Normal [s].

(** [expand], with a budget for the depth of its recursion on [suffix]. *)
Fixpoint expand_fuel (fuel : nat) (s : jsstring) : completion (list jsstring) :=
  match fuel with
  | 0 => OutOfFuel
  | S fuel' => expand_scan (expand_fuel fuel') (length s) s 0
  end.

Definition expand (s : jsstring) : completion (list jsstring) :=
  expand_fuel (S (length s)) s.

(** The [for (const val of expand(str))] loop with its [seen] set: the
    list of the values it yields, in the order it yields them. *)
Fixpoint yield_loop (vals : list jsstring) (seen : gset jsstring) : list jsstring :=
  match vals with
  | [] => []
  | val :: rest =>
      if bool_decide (val ∈ seen) then yield_loop rest seen
      else val :: yield_loop rest ({[val]} ∪ seen)
  end.

(** [expandBraces(str)] as seen by a consumer that runs the generator to
    its end: the sequence of yielded strings, or the exception.  [expand]
    runs to completion before the first [yield], so an exception comes with
    no yielded value. *)
Definition expandBraces (str : jsstring) : completion (list jsstring) :=
  match expand str with
  | Normal vals => Normal (yield_loop vals ∅)
  | Throw msg => Throw msg
  | OutOfFuel => OutOfFuel
  end.

End Braces.

(** ** Specification-side notions for brace expansion *)

Module BracesSpec.
Import Braces.

(** Nesting depth, as the specification counts it: [+1] for an opening
    brace, [-1] for a closing one. *)
Definition brace_delta (ch : ascii) : Z :=
  if bool_decide (ch = open_brace) then 1%Z
  else if bool_decide (ch = close_brace) then (-1)%Z
  else 0%Z.

Fixpoint net_level (s : jsstring) : Z :=
  match s with
  | [] => 0%Z
  | ch :: rest => (brace_delta ch + net_level rest)%Z
  end.

(** Depth of position [k] of [s], relative to the start of [s]. *)
Definition depth_at (s : jsstring) (k : nat) : Z := net_level (take k s).

(** The alternatives with the separating commas put back. *)
Fixpoint join_commas (alts : list jsstring) : jsstring :=
  match alts with
  | [] => []
  | [a] => a
  | a :: rest => a ++ comma :: join_commas rest
  end.

(** Position in [join_commas alts] of the comma that follows the first
    [j] alternatives. *)
Definition separator_pos (alts : list jsstring) (j : nat) : nat :=
  length (join_commas (take j alts)).

(** What the loop returns when entered at level [lvl] with empty
    accumulators. *)
Definition splits (lvl : Z) (chars : jsstring) : list jsstring :=
  splitCommaSafe_loop chars [] lvl [].

(** [current] put in front of the first alternative of [alts]. *)
Definition glue (current : jsstring) (alts : list jsstring) : list jsstring :=
  match alts with
  | [] => [current]
  | a :: rest => (current ++ a) :: rest
  end.

(** The depth counter of the specification's scan: an opening brace
    raises it, a closing brace lowers it while it is positive, and a
    closing brace at depth 0 is literal text. *)
Fixpoint scan_depth (depth : Z) (s : jsstring) : Z :=
  match s with
  | [] => depth
  | ch :: rest =>
      scan_depth
        (if bool_decide (ch = open_brace) then depth + 1
         else if bool_decide (ch = close_brace) && bool_decide (0 < depth)
              then depth - 1 else depth)%Z
        rest
  end.

(** "An opening brace with no matching close": the scan ends at a
    positive depth. *)
Definition unclosed (s : jsstring) : Prop := (0 < scan_depth 0 s)%Z.

(** [find_close] by recursion on the text that is left. *)
Fixpoint close_scan (rest : jsstring) (i : nat) (level : Z) : nat * Z :=
  match rest with
  | [] => (i, level)
  | ch :: rest' =>
      if bool_decide (0 < level)%Z then
        close_scan rest' (i + 1)
          (if bool_decide (ch = open_brace) then level + 1
           else if bool_decide (ch = close_brace) then level - 1
           else level)%Z
      else (i, level)
  end.

(** First-occurrence positions: the value generated at index [k] is kept
    when it was not generated at an earlier index. *)
Definition kept_at (vals : list jsstring) (k : nat) : option jsstring :=
  match vals !! k with
  | Some x => if bool_decide (x ∈ take k vals) then None else Some x
  | None => None
  end.

(** The kept values, in generation order. *)
Definition first_occurrences (vals : list jsstring) : list jsstring :=
  omap (kept_at vals) (seq 0 (length vals)).

End BracesSpec.

(** ** Generator objects *)

Module Generator.
Import Braces.

(** The generator object a call of [expandBraces] returns.  Its state is
    its own: the argument before the body is entered, and the rest of
    the array being iterated with the [seen] set once the body is paused
    at [yield]. *)
Inductive generator : Type :=
| SuspendedStart (str : jsstring)
| SuspendedYield (rest : list jsstring) (seen : gset jsstring)
| Completed.

(** The result of [next()]: [Normal (Some v)] is [{ value: v, done:
    false }], [Normal None] is [{ done: true }]. *)
Abbreviation next_result := (completion (option jsstring)).

(** The [for ... of] loop of the body, run to its next [yield]. *)
Fixpoint resume (vals : list jsstring) (seen : gset jsstring)
    : next_result * generator :=
  match vals with
  | [] => (Normal None, Completed)
  | val :: rest =>
      if bool_decide (val ∈ seen) then resume rest seen
      else (Normal (Some val), SuspendedYield rest ({[val]} ∪ seen))
  end.

(** [gen.next()]. *)
Definition next (gen : generator) : next_result * generator :=
  match gen with
  | SuspendedStart str =>
      match expand str with
      | Normal vals => resume vals ∅
      | Throw msg => (Throw msg, Completed)
      | OutOfFuel => (OutOfFuel, Completed)
      end
  | SuspendedYield rest seen => resume rest seen
  | Completed => (Normal None, Completed)
  end.

(** The generator objects alive in the program, by allocation index. *)
Abbreviation heap := (list generator).

(** [expandBraces(str)]: allocates a generator object; no code of the
    body runs yet. *)
Definition call_expandBraces (str : jsstring) (h : heap) : nat * heap :=
  (length h, h ++ [SuspendedStart str]).

(** [next()] on the object at index [id]. *)
Definition heap_next (id : nat) (h : heap) : next_result * heap :=
  match h !! id with
  | Some gen => let '(r, gen') := next gen in (r, <[id := gen']> h)
  | None => (Throw "TypeError", h)
  end.

(** A consumer that calls [next()] until the generator is done or
    throws: the values received, and how the iteration ended. *)
Fixpoint drain (fuel : nat) (id : nat) (h : heap) (received : list jsstring)
    : (list jsstring * completion unit) * heap :=
  match fuel with
  | 0 => ((received, OutOfFuel), h)
  | S fuel' =>
      match heap_next id h with
      | (Normal (Some v), h') => drain fuel' id h' (received ++ [v])
      | (Normal None, h') => ((received, Normal ()), h')
      | (Throw msg, h') => ((received, Throw msg), h')
      | (OutOfFuel, h') => ((received, OutOfFuel), h')
      end
  end.

(** A call of [expandBraces(str)] in the heap [h], consumed to its end. *)
Definition call_and_drain (fuel : nat) (str : jsstring) (h : heap)
    : (list jsstring * completion unit) * heap :=
  let '(id, h1) := call_expandBraces str h in drain fuel id h1 [].

(** What a consumer sees of a sequence that [expandBraces] describes. *)
Definition observe (c : completion (list jsstring)) : list jsstring * completion unit :=
  match c with
  | Normal out => (out, Normal ())
  | Throw msg => ([], Throw msg)
  | OutOfFuel => ([], OutOfFuel)
  end.

(** A number of [next()] calls that exhausts the generator of [str]. *)
Definition budget (str : jsstring) : nat :=
  match expand str with
  | Normal vals => S (length vals)
  | _ => 1
  end.

End Generator.

(** ** Groups and flat patterns *)

Module BracesPatterns.
Import Braces BracesSpec.

(** The content of a group: the braces inside it are matched, so the
    first closing brace that returns the scan to depth 0 is the one
    that follows the content. *)
Definition balanced (inner : jsstring) : Prop :=
  net_level inner = 0%Z ∧ ∀ k, (0 ≤ depth_at inner k)%Z.

(** Text with no brace and no comma. *)
Definition plain (a : jsstring) : Prop :=
  (open_brace ∉ a) ∧ (close_brace ∉ a) ∧ (comma ∉ a).

(** A pattern without nesting: literal text, then groups of plain
    alternatives, each followed by literal text. *)
Abbreviation groups := (list (list jsstring * jsstring)).

Fixpoint render_groups (gs : groups) : jsstring :=
  match gs with
  | [] => []
  | (alts, lit) :: rest =>
      open_brace :: join_commas alts ++ close_brace :: lit ++ render_groups rest
  end.

Definition render (lit0 : jsstring) (gs : groups) : jsstring :=
  lit0 ++ render_groups gs.

(** One choice per group, the choices of an earlier group varying
    slowest. *)
Fixpoint combinations (lit0 : jsstring) (gs : groups) : list jsstring :=
  match gs with
  | [] => [lit0]
  | (alts, lit) :: rest =>
      flat_map (λ a, map (λ tail, lit0 ++ a ++ tail) (combinations lit rest)) alts
  end.

Definition flat_groups (gs : groups) : Prop :=
  Forall (λ g, g.1 ≠ [] ∧ Forall plain g.1 ∧ open_brace ∉ g.2) gs.

End BracesPatterns.

(** ** getZigZagMatrix *)

Module ZigZag.

(** An array slot: a number, or the empty slot that an assignment past
    the end of an array leaves behind. *)
Inductive slot : Type :=
| Num (v : nat)
| Hole.

Abbreviation matrix := (list (list slot)).

(** [row[j] = v]: in range the slot is overwritten; past the end the
    array grows to length [j + 1]. *)
Definition set_slot (row : list slot) (j : nat) (v : nat) : list slot :=
  if bool_decide (j < length row) then <[j := Num v]> row
  else row ++ replicate (j - length row) Hole ++ [Num v].

(** [result[i][j] = num]: [result[i]] is [undefined] when [i] is out of
    range, and assigning to a property of [undefined] is a TypeError. *)
Definition store (result : matrix) (i j num : nat) : completion matrix :=
  match result !! i with
  | Some row => Normal (<[i := set_slot row j num]> result)
  | None => Throw "TypeError"
  end.

(** The move made at the end of one iteration, from [(i, j)]. *)
Definition advance (n i j : nat) : nat * nat :=
  if bool_decide ((i + j) mod 2 = 0) then
    let '(i1, j1) := if bool_decide (j + 1 < n) then (i, j + 1) else (i + 2, j) in
    let i2 := if bool_decide (0 < i1) then i1 - 1 else i1 in
    (i2, j1)
  else
    let '(i1, j1) := if bool_decide (i + 1 < n) then (i + 1, j) else (i, j + 2) in
    let j2 := if bool_decide (0 < j1) then j1 - 1 else j1 in
    (i1, j2).

(** The [for (let num = 0; num < n * n; num++)] loop, with [todo]
    iterations left to run. *)
Fixpoint fill (n todo num : nat) (result : matrix) (i j : nat) : completion matrix :=
  match todo with
  | 0 => Normal result
  | S todo' =>
      match store result i j num with
      | Normal result' =>
          let '(i', j') := advance n i j in
          fill n todo' (num + 1) result' i' j'
      | Throw msg => Throw msg
      | OutOfFuel => OutOfFuel
      end
  end.

(** [Array.from({ length: n }, () => Array(n).fill(0))] builds [n]
    separate rows; a list of lists has no sharing between rows either. *)
Definition getZigZagMatrix (n : nat) : completion matrix :=
  fill n (n * n) 0 (replicate n (replicate n (Num 0))) 0 0.

(** The rows of a matrix of numbers. *)
Definition of_rows (m : list (list nat)) : matrix := map (map Num) m.

End ZigZag.

(** ** The zig-zag path *)

Module ZigZagSpec.

(** Number of cells on the anti-diagonal [i + j = d] of an [n]-by-[n]
    square. *)
Definition diag_len (n d : nat) : nat :=
  if bool_decide (d < n) then d + 1 else 2 * n - 1 - d.

(** Number of cells on the anti-diagonals before [d]. *)
Fixpoint before (n d : nat) : nat :=
  match d with
  | 0 => 0
  | S d' => before n d' + diag_len n d'
  end.

(** Place of [(i, j)] on its anti-diagonal, in the direction of travel:
    even diagonals run up and to the right, odd ones down and to the
    left. *)
Definition offset (n i j : nat) : nat :=
  if bool_decide ((i + j) mod 2 = 0)
  then (if bool_decide (i + j < n) then j else n - 1 - i)
  else (if bool_decide (i + j < n) then i else n - 1 - j).

(** Place of [(i, j)] on the zig-zag path. *)
Definition rank (n i j : nat) : nat := before n (i + j) + offset n i j.

(** The slot at row [a], column [b]. *)
Definition entry (result : ZigZag.matrix) (a b : nat) : option ZigZag.slot :=
  match result !! a with
  | Some row => row !! b
  | None => None
  end.


(** State of the loop when [num] is about to be stored at [(i, j)]: the
    array is [n]-by-[n] with no empty slot, every smaller number sits in
    a cell of that rank, and [(i, j)] is the cell of rank [num]. *)
Record fill_inv (n num : nat) (result : ZigZag.matrix) (i j : nat) : Prop := {
  inv_rows : length result = n;
  inv_cols : ∀ a row, result !! a = Some row →
    length row = n ∧ ∀ b c, row !! b = Some c → ∃ v, c = ZigZag.Num v;
  inv_done : ∀ k, k < num →
    ∃ a b, a < n ∧ b < n ∧ rank n a b = k ∧ entry result a b = Some (ZigZag.Num k);
  inv_here : num < n * n → i < n ∧ j < n ∧ rank n i j = num
}.

End ZigZagSpec.

(** ** CssSelector and cssSelectorBuilder *)

Module Css.

Definition order_error : string :=
  "Selector parts should be arranged in the following order: element, id, class, attribute, pseudo-class, pseudo-element".

Definition unique_error : string :=
  "Element, id and pseudo-element should not occur more then one time inside the selector".

(** The fields of a [CssSelector] object; [used] is the object indexed by
    [this.used[type]]. *)
Record CssSelector : Type := {
  result : jsstring;
  order : nat;
  used : gmap string bool
}.

(** [new CssSelector()]. *)
Definition new_CssSelector : CssSelector :=
  {| result := [];
     order := 0;
     used := <["element" := false]>
               (<["id" := false]> (<["pseudoElement" := false]> ∅)) |}.

(** A method body runs on the receiver [this], may assign to its fields,
    and returns a value or throws: [this] before to [this] after, with
    the completion. *)
Definition method (A : Type) : Type := CssSelector → CssSelector * completion A.

#[export] Instance method_ret : MRet method := λ A a this, (this, Normal a).

#[export] Instance method_bind : MBind method := λ A B f m this,
  match m this with
  | (this', Normal a) => f a this'
  | (this', Throw msg) => (this', Throw msg)
  | (this', OutOfFuel) => (this', OutOfFuel)
  end.

Definition throw {A : Type} (msg : string) : method A := λ this, (this, Throw msg).
Definition get_this : method CssSelector := λ this, (this, Normal this).
Definition set_order (current : nat) : method unit := λ this,
  ({| result := result this; order := current; used := used this |}, Normal ()).
Definition set_used (type : string) : method unit := λ this,
  ({| result := result this; order := order this;
      used := <[type := true]> (used this) |}, Normal ()).

Definition checkOrder (current : nat) : method unit :=
  this ← get_this;
  if bool_decide (current < order this) then throw order_error
  else set_order current.

Definition checkUnique (type : string) : method unit :=
  this ← get_this;
  if bool_decide (used this !! type = Some true) then throw unique_error
  else set_used type.

(** [clone()]: a new object with the current fields of [this]; the
    spread [{ ...this.used }] copies the map. *)
Definition clone : method CssSelector :=
  this ← get_this;
  mret {| result := result this; order := order this; used := used this |}.

(** [copy.result += text; return copy]. *)
Definition append_result (copy : CssSelector) (text : jsstring) : CssSelector :=
  {| result := result copy ++ text; order := order copy; used := used copy |}.

Definition element (value : jsstring) : method CssSelector :=
  checkOrder 1;; checkUnique "element";;
  copy ← clone; mret (append_result copy value).

Definition id (value : jsstring) : method CssSelector :=
  checkOrder 2;; checkUnique "id";;
  copy ← clone; mret (append_result copy (js "#" ++ value)).

Definition class (value : jsstring) : method CssSelector :=
  checkOrder 3;;
  copy ← clone; mret (append_result copy (js "." ++ value)).

Definition attr (value : jsstring) : method CssSelector :=
  checkOrder 4;;
  copy ← clone; mret (append_result copy (js "[" ++ value ++ js "]")).

Definition pseudoClass (value : jsstring) : method CssSelector :=
  checkOrder 5;;
  copy ← clone; mret (append_result copy (js ":" ++ value)).

Definition pseudoElement (value : jsstring) : method CssSelector :=
  checkOrder 6;; checkUnique "pseudoElement";;
  copy ← clone; mret (append_result copy (js "::" ++ value)).

Definition stringify (this : CssSelector) : jsstring := result this.

(** The six chainable methods. *)
Inductive part : Type :=
| Element | Id | Class | Attr | PseudoClass | PseudoElement.

#[export] Instance part_eq_dec : EqDecision part.
Proof. solve_decision. Defined.

Definition invoke (p : part) (value : jsstring) : method CssSelector :=
  match p with
  | Element => element value
  | Id => id value
  | Class => class value
  | Attr => attr value
  | PseudoClass => pseudoClass value
  | PseudoElement => pseudoElement value
  end.

(** [sel.m1(v1).m2(v2)...]: each call runs on the object the previous
    call returned; the first exception ends the chain. *)
Fixpoint chain_from (sel : CssSelector) (calls : list (part * jsstring))
    : completion CssSelector :=
  match calls with
  | [] => Normal sel
  | (p, value) :: rest =>
      match (invoke p value sel).2 with
      | Normal copy => chain_from copy rest
      | Throw msg => Throw msg
      | OutOfFuel => OutOfFuel
      end
  end.

(** [cssSelectorBuilder.m1(v1).m2(v2)...]: every builder method calls
    the method of the same name on [new CssSelector()]. *)
Definition builder_chain (calls : list (part * jsstring)) : completion CssSelector :=
  chain_from new_CssSelector calls.

End Css.

(** ** Specification-side notions for selector chains *)

Module CssSpec.
Import Css.

(** Place of a part in [element#id.class[attr]:pseudoClass::pseudoElement]. *)
Definition part_order (p : part) : nat :=
  match p with
  | Element => 1 | Id => 2 | Class => 3
  | Attr => 4 | PseudoClass => 5 | PseudoElement => 6
  end.

(** The parts that may occur once only, with their key in [used]. *)
Definition unique_key (p : part) : option string :=
  match p with
  | Element => Some "element"
  | Id => Some "id"
  | PseudoElement => Some "pseudoElement"
  | _ => None
  end.

Definition once_only (p : part) : Prop := is_Some (unique_key p).

(** The methods called by a chain, in call order. *)
Definition parts (calls : list (part * jsstring)) : list part := calls.*1.

(** The text a call appends to [result]. *)
Definition part_text (p : part) (value : jsstring) : jsstring :=
  match p with
  | Element => value
  | Id => js "#" ++ value
  | Class => js "." ++ value
  | Attr => js "[" ++ value ++ js "]"
  | PseudoClass => js ":" ++ value
  | PseudoElement => js "::" ++ value
  end.

(** What is known of the selector returned by a chain of calls that did
    not throw: [order] is the place of the last part called, no part
    called has a later place, and [used] marks the once-only parts
    called. *)
Record chain_inv (calls : list (part * jsstring)) (sel : CssSelector) : Prop := {
  inv_order : order sel = default 0 (part_order <$> last (parts calls));
  inv_sorted : ∀ p, p ∈ parts calls → part_order p ≤ order sel;
  inv_used : ∀ p key, unique_key p = Some key →
    used sel !! key = Some true ↔ p ∈ parts calls
}.

End CssSpec.

(** ** Combined selectors and well-formed chains *)

Module CssMore.
Import Css CssSpec.

(** What [combine] is given and what it returns: a [CssSelector], or the
    object of an earlier [combine], which keeps its two arguments and
    the combinator and builds its string when [stringify()] is called.
    No method assigns to the [result] of an object after it is
    returned, so building the string late or early is the same. *)
Inductive selector : Type :=
| Simple (sel : CssSelector)
| Combined (selector1 : selector) (combinator : jsstring) (selector2 : selector).

Definition combine (selector1 : selector) (combinator : jsstring)
    (selector2 : selector) : selector :=
  Combined selector1 combinator selector2.

Fixpoint stringify_selector (s : selector) : jsstring :=
  match s with
  | Simple sel => stringify sel
  | Combined selector1 combinator selector2 =>
      stringify_selector selector1 ++ js " " ++ combinator ++ js " "
        ++ stringify_selector selector2
  end.

(** The whole text of a list of calls. *)
Definition chain_text (calls : list (part * jsstring)) : jsstring :=
  concat (map (λ call, part_text call.1 call.2) calls).

(** A part may be called after another when it stands later in the
    selector, or when it repeats a part that may occur several times. *)
Definition may_follow (p q : part) : Prop :=
  part_order p < part_order q ∨ (p = q ∧ unique_key q = None).

(** A list of parts in which every part may follow the one before it;
    [prev] is the part called before the list, if any. *)
Fixpoint valid_from (prev : option part) (ps : list part) : Prop :=
  match ps with
  | [] => True
  | q :: rest =>
      match prev with
      | None => True
      | Some p => may_follow p q
      end ∧ valid_from (Some q) rest
  end.

(** A selector object in the state the calls up to [prev] leave. *)
Definition follows (prev : option part) (sel : CssSelector) : Prop :=
  order sel = default 0 (part_order <$> prev) ∧
  ∀ q key, unique_key q = Some key → order sel ≤ part_order q →
    used sel !! key = Some true ↔ prev = Some q.

End CssMore.

(** ** extractRanges *)

Module Ranges.

(** A JavaScript number is an IEEE 754 double.  The numbers of the
    lists are integers; an integer-valued double is modelled by its
    value in [Z], and a list of numbers by a [list Z] of values that
    doubles hold. *)

(** The double nearest to the integer [z], a tie going to the even
    significand: below [2^53] every integer is a double; from there on a
    double keeps the 53 leading bits. *)
Definition round_double (z : Z) : Z :=
  let e := (Z.log2 (Z.abs z) - 52)%Z in
  if bool_decide (e ≤ 0)%Z then z
  else
    let q := (z / 2 ^ e)%Z in
    let r := (z mod 2 ^ e)%Z in
    let half := (2 ^ (e - 1))%Z in
    ((if bool_decide (r < half)%Z then q
      else if bool_decide (half < r)%Z then q + 1
      else if Z.even q then q else q + 1) * 2 ^ e)%Z.

(** The decimal digits of an integer. *)
Definition digits (z : Z) : jsstring := js (NilZero.string_of_int (Z.to_int z)).

(** The integer that [Number::toString] prints for the double [x > 0]:
    of the integers that read back as [x], one with the fewest
    significant digits, and of these the nearest to [x].  The multiples
    of [10^m] next to [x] are tried, from the largest [m] down. *)
Fixpoint shortest_from (m : nat) (x : Z) : Z :=
  let p := (10 ^ Z.of_nat m)%Z in
  let lo := (x / p * p)%Z in
  let hi := (lo + p)%Z in
  let below := bool_decide (0 < lo)%Z && bool_decide (round_double lo = x) in
  let above := bool_decide (round_double hi = x) in
  if below && above then
    (if bool_decide (x - lo < hi - x)%Z then lo
     else if bool_decide (hi - x < x - lo)%Z then hi
     else if Z.even (x / p) then lo else hi)
  else if below then lo
  else if above then hi
  else match m with
       | 0 => x
       | S m' => shortest_from m' x
       end.

Definition shortest (x : Z) : Z := shortest_from (length (digits x)) x.

(** A digit string without its trailing zeros. *)
Fixpoint significant (d : jsstring) : jsstring :=
  match d with
  | [] => []
  | c :: rest =>
      match significant rest with
      | [] => if bool_decide (c = "0"%char) then [] else [c]
      | s => c :: s
      end
  end.

(** [Number::toString] for an integer-valued double [x >= 0]: all the
    digits below [10^21], and from there on the significant digits with
    a point after the first and the exponent. *)
Definition unsigned_to_string (x : Z) : jsstring :=
  let v := shortest x in
  if bool_decide (v < 10 ^ 21)%Z then digits v
  else
    let d := digits v in
    let s := significant d in
    take 1 s ++ (if bool_decide (1 < length s) then js "." ++ drop 1 s else [])
      ++ js "e+" ++ digits (Z.of_nat (length d - 1)).

(** [`${x}`] for an integer-valued double [x]. *)
Definition number_to_string (x : Z) : jsstring :=
  if bool_decide (x < 0)%Z then js "-" ++ unsigned_to_string (- x)
  else unsigned_to_string x.

(** [`${nums[i]}`]; an index out of range reads [undefined]. *)
Definition element_text (nums : list Z) (i : nat) : jsstring :=
  match nums !! i with
  | Some x => number_to_string x
  | None => js "undefined"
  end.

(** [nums[j + 1] === nums[j] + 1]: the sum is the double nearest to
    it; [undefined + 1] is [NaN], which equals nothing. *)
Definition continues (nums : list Z) (j : nat) : bool :=
  match nums !! (j + 1), nums !! j with
  | Some b, Some a => bool_decide (b = round_double (a + 1)%Z)
  | _, _ => false
  end.

(** The [while (j + 1 < nums.length && ...) j++] loop: the value of [j]
    at its exit. *)
Fixpoint run_end (fuel : nat) (nums : list Z) (j : nat) : option nat :=
  if bool_decide (j + 1 < length nums) && continues nums j then
    match fuel with
    | 0 => None
    | S fuel' => run_end fuel' nums (j + 1)
    end
  else Some j.

(** The [for (let i = 0; i < nums.length;)] loop. *)
Fixpoint ranges_loop (fuel : nat) (nums : list Z) (i : nat) (result : jsstring)
    : completion jsstring :=
  if bool_decide (i < length nums) then
    match fuel with
    | 0 => OutOfFuel
    | S fuel' =>
        match run_end (length nums) nums i with
        | None => OutOfFuel
        | Some j =>
            if bool_decide (2 ≤ j - i) then
              ranges_loop fuel' nums (j + 1)
                (result ++ element_text nums i ++ js "-"
                        ++ element_text nums j ++ js ",")
            else
              ranges_loop fuel' nums (i + 1)
                (result ++ element_text nums i ++ js ",")
        end
    end
  else Normal result.

(** [extractRanges(nums)]; [result.slice(0, -1)] drops the last
    character, and nothing from the empty string. *)
Definition extractRanges (nums : list Z) : completion jsstring :=
  match ranges_loop (length nums) nums 0 [] with
  | Normal result => Normal (slice result 0 (length result - 1))
  | Throw msg => Throw msg
  | OutOfFuel => OutOfFuel
  end.

End Ranges.

(** ** Reading range notation *)

Module RangesSpec.
Import Ranges.

(** The integers that doubles hold one by one
    ([Number.isSafeInteger]): on them [x + 1] is exact. *)
Definition safe_integer (x : Z) : Prop := (- 2 ^ 53 < x < 2 ^ 53)%Z.

(** An integer in decimal notation, with a minus sign when negative. *)
Definition decimal (x : Z) : jsstring :=
  js (NilZero.string_of_int (Z.to_int x)).

(** The items of the notation: one integer, or the two ends of a range. *)
Inductive item : Type :=
| Single (x : Z)
| Range (a b : Z).

Definition item_text (t : item) : jsstring :=
  match t with
  | Single x => decimal x
  | Range a b => decimal a ++ js "-" ++ decimal b
  end.

(** The integers an item stands for. *)
Definition item_values (t : item) : list Z :=
  match t with
  | Single x => [x]
  | Range a b => seqZ a (b - a + 1)
  end.

(** The list a sequence of items stands for. *)
Definition values (items : list item) : list Z := flat_map item_values items.

(** A range stands for more than two values. *)
Definition long_range (t : item) : Prop :=
  match t with
  | Single _ => True
  | Range a b => (a + 2 ≤ b)%Z
  end.

(** No item could have been a longer range: what follows a single
    [x] does not begin with [x + 1, x + 2], and what follows a range
    that ends at [b] does not begin with [b + 1]. *)
Definition maximal (items : list item) : Prop :=
  ∀ before t after, items = before ++ t :: after →
    match t with
    | Single x => ∀ rest, values after ≠ (x + 1)%Z :: (x + 2)%Z :: rest
    | Range a b => ∀ rest, values after ≠ (b + 1)%Z :: rest
    end.

End RangesSpec.

(** ** canDominoesMakeRow *)

Module Dominoes.

(** A tile [[x, y]]. *)
Abbreviation domino := (Z * Z)%type.

(** The [Map] from a value to the array of its neighbours: its entries
    in insertion order. *)
Abbreviation graph := (list (Z * list Z)).

(** [graph.get(k)]. *)
Fixpoint get (g : graph) (k : Z) : option (list Z) :=
  match g with
  | [] => None
  | (k', neigh) :: rest => if bool_decide (k' = k) then Some neigh else get rest k
  end.

(** [graph.has(k)]. *)
Definition has (g : graph) (k : Z) : bool :=
  match get g k with Some _ => true | None => false end.

(** [graph.set(k, v)]: a known key keeps its place, a new one goes to
    the end. *)
Fixpoint set (g : graph) (k : Z) (v : list Z) : graph :=
  match g with
  | [] => [(k, v)]
  | (k', neigh) :: rest =>
      if bool_decide (k' = k) then (k', v) :: rest else (k', neigh) :: set rest k v
  end.

(** [graph.get(k).push(x)]: the array stored under [k] grows. *)
Fixpoint push (g : graph) (k x : Z) : graph :=
  match g with
  | [] => []
  | (k', neigh) :: rest =>
      if bool_decide (k' = k) then (k', neigh ++ [x]) :: rest
      else (k', neigh) :: push rest k x
  end.

(** The body of [for (let [a, b] of dominoes)]. *)
Definition add_domino (g : graph) (d : domino) : graph :=
  let '(a, b) := d in
  let g1 := if has g a then g else set g a [] in
  let g2 := if has g1 b then g1 else set g1 b [] in
  push (push g2 a b) b a.

Definition build_graph (dominoes : list domino) : graph :=
  foldl add_domino [] dominoes.

(** [[...graph.values()].filter(neigh => neigh.length % 2 === 1).length]. *)
Definition oddDegrees (g : graph) : nat :=
  length (filter (λ neigh, length neigh mod 2 = 1) g.*2).

(** The [for (let neigh of graph.get(v))] loop of [dfs], with the
    recursive call as [dfs_rec]; [visited] is the set shared by all
    calls. *)
Fixpoint visit (dfs_rec : Z → gset Z → completion (gset Z))
    (neighs : list Z) (visited : gset Z) : completion (gset Z) :=
  match neighs with
  | [] => Normal visited
  | neigh :: rest =>
      if bool_decide (neigh ∈ visited) then visit dfs_rec rest visited
      else match dfs_rec neigh visited with
           | Normal visited' => visit dfs_rec rest visited'
           | Throw msg => Throw msg
           | OutOfFuel => OutOfFuel
           end
  end.

(** [dfs(v)], with a budget for the depth of the recursion; iterating
    over [graph.get(v)] when [v] is no key is a TypeError. *)
Fixpoint dfs (fuel : nat) (g : graph) (v : Z) (visited : gset Z)
    : completion (gset Z) :=
  match fuel with
  | 0 => OutOfFuel
  | S fuel' =>
      match get g v with
      | Some neighs => visit (dfs fuel' g) neighs ({[v]} ∪ visited)
      | None => Throw "TypeError"
      end
  end.

Definition canDominoesMakeRow (dominoes : list domino) : completion bool :=
  if bool_decide (length dominoes = 0) then Normal true
  else
    let g := build_graph dominoes in
    let odd := oddDegrees g in
    if bool_decide (odd ≠ 0) && bool_decide (odd ≠ 2) then Normal false
    else
      let keys := g.*1 in
      match keys with
      | [] => Throw "TypeError"
      | first :: _ =>
          match dfs (S (length keys)) g first ∅ with
          | Normal visited =>
              Normal (forallb (λ v, bool_decide (v ∈ visited)) keys)
          | Throw msg => Throw msg
          | OutOfFuel => OutOfFuel
          end
      end.

End Dominoes.

(** ** Degrees and links of a set of tiles *)

Module DominoesSpec.
Import Dominoes.

(** The values on the tiles, both ends of every tile. *)
Definition ends (dominoes : list domino) : list Z :=
  flat_map (λ d, [d.1; d.2]) dominoes.

(** How many tile ends show [u]; a double counts twice. *)
Definition occurrences (dominoes : list domino) (u : Z) : nat :=
  length (filter (λ x, x = u) (ends dominoes)).

(** [u] and [w] are the two ends of some tile. *)
Definition linked (dominoes : list domino) (u w : Z) : Prop :=
  ∃ d, d ∈ dominoes ∧ ((u = d.1 ∧ w = d.2) ∨ (u = d.2 ∧ w = d.1)).

(** The number of values that occur an odd number of times. *)
Definition odd_values (dominoes : list domino) : nat :=
  length (filter (λ u, occurrences dominoes u mod 2 = 1)
                 (remove_dups (ends dominoes))).

(** [if (!graph.has(k)) graph.set(k, [])]. *)
Definition ensure (g : graph) (k : Z) : graph := if has g k then g else set g k [].

(** The map built from the tiles: its keys are the values on the tiles,
    each once, and the array under a value lists the other ends of the
    tiles that show it, one entry per tile end. *)
Definition graph_inv (dominoes : list domino) (g : graph) : Prop :=
  NoDup g.*1 ∧
  ∀ u, match get g u with
       | Some l => u ∈ ends dominoes ∧ length l = occurrences dominoes u ∧
                   ∀ w, w ∈ l ↔ linked dominoes u w
       | None => u ∉ ends dominoes
       end.

(** [w] is in the array of [u]. *)
Definition edge (g : graph) (u w : Z) : Prop :=
  ∃ l, get g u = Some l ∧ w ∈ l.

(** Every visited value outside [pending] has all its neighbours
    visited. *)
Definition closed_except (g : graph) (pending visited : gset Z) : Prop :=
  ∀ u w, u ∈ visited → u ∉ pending → edge g u w → w ∈ visited.

End DominoesSpec.

(** ** createCompassPoints *)

Module Compass.

(** An element of the array returned; [abbreviations[i]] is [None] when
    it reads [undefined].  The azimuths [i * 11.25] are multiples of a
    quarter and are exact as floating-point numbers; they are rationals
    here. *)
Record compass_point : Type := {
  abbreviation : option jsstring;
  azimuth : Q
}.

Definition abbreviations : list jsstring :=
  js <$> ["N"; "NbE"; "NNE"; "NEbN"; "NE"; "NEbE"; "ENE"; "EbN";
          "E"; "EbS"; "ESE"; "SEbE"; "SE"; "SEbS"; "SSE"; "SbE";
          "S"; "SbW"; "SSW"; "SWbS"; "SW"; "SWbW"; "WSW"; "WbS";
          "W"; "WbN"; "WNW"; "NWbW"; "NW"; "NWbN"; "NNW"; "NbW"]%string.

(** The [for (let i = 0; i < 32; i++)] loop, with [todo] iterations
    left.  (The function [getAbbreviation] that the source defines is
    never called.) *)
Fixpoint points_loop (todo i : nat) (result : list compass_point)
    : list compass_point :=
  match todo with
  | 0 => result
  | S todo' =>
      let angle := (inject_Z (Z.of_nat i) * (1125 # 100))%Q in
      points_loop todo' (i + 1)
        (result ++ [{| abbreviation := abbreviations !! i; azimuth := angle |}])
  end.

Definition createCompassPoints : list compass_point := points_loop 32 0 [].

End Compass.

(** ** Symmetries of the compass *)

Module CompassSpec.

(** The opposite direction: north and south exchanged, east and west
    exchanged. *)
Definition opposite_letter (c : ascii) : ascii :=
  if bool_decide (c = "N"%char) then "S"%char
  else if bool_decide (c = "S"%char) then "N"%char
  else if bool_decide (c = "E"%char) then "W"%char
  else if bool_decide (c = "W"%char) then "E"%char
  else c.

(** The direction mirrored in the north-south line: east and west
    exchanged. *)
Definition mirror_letter (c : ascii) : ascii :=
  if bool_decide (c = "E"%char) then "W"%char
  else if bool_decide (c = "W"%char) then "E"%char
  else c.

Definition opposite (s : jsstring) : jsstring := opposite_letter <$> s.
Definition mirror (s : jsstring) : jsstring := mirror_letter <$> s.

End CompassSpec.

(** ** Facts about brace expansion *)

Module BracesFacts.
Import Braces BracesSpec.

Lemma loop_glue chars : ∀ result lvl current,
  splitCommaSafe_loop chars result lvl current
  = result ++ glue current (splits lvl chars).
Proof.
  unfold splits.
  induction chars as [|ch rest IH]; intros result lvl current; simpl.
  - by rewrite app_nil_r.
  - destruct (bool_decide (ch = comma) && bool_decide (lvl = 0%Z)).
    + rewrite (IH (result ++ [current])), (IH ([] ++ [[]])).
      simpl. by rewrite app_nil_r, <- app_assoc.
    + rewrite (IH result _ (current ++ [ch])), (IH [] _ [ch]). simpl.
      destruct (splitCommaSafe_loop rest [] _ []) as [|a r]; simpl.
      * done.
      * by rewrite <- app_assoc.
Qed.

Lemma splits_nonempty lvl chars : splits lvl chars ≠ [].
Proof.
  unfold splits. rewrite loop_glue. simpl.
  by destruct (splits lvl chars).
Qed.

Lemma glue_nil alts : alts ≠ [] → glue [] alts = alts.
Proof. by destruct alts. Qed.

Lemma splits_cons lvl ch rest :
  splits lvl (ch :: rest) =
    if bool_decide (ch = comma) && bool_decide (lvl = 0%Z)
    then [] :: splits lvl rest
    else glue [ch] (splits (lvl + brace_delta ch) rest).
Proof.
  unfold splits at 1. simpl.
  destruct (bool_decide (ch = comma) && bool_decide (lvl = 0%Z)).
  - rewrite loop_glue. simpl. f_equal. apply glue_nil, splits_nonempty.
  - rewrite loop_glue. simpl. f_equal. f_equal.
    unfold brace_delta, open_brace, close_brace.
    repeat case_bool_decide; subst; try discriminate; f_equal; lia.
Qed.

Lemma join_cons a alts :
  alts ≠ [] → join_commas (a :: alts) = a ++ comma :: join_commas alts.
Proof. by destruct alts. Qed.

Lemma join_glue c alts :
  alts ≠ [] → join_commas (glue c alts) = c ++ join_commas alts.
Proof.
  destruct alts as [|a [|b r]]; [done| |]; intros _; simpl.
  - done.
  - by rewrite <- app_assoc.
Qed.

Lemma join_splits chars : ∀ lvl, join_commas (splits lvl chars) = chars.
Proof.
  induction chars as [|ch rest IH]; intros lvl; [done|].
  rewrite splits_cons.
  destruct (bool_decide (ch = comma) && bool_decide (lvl = 0%Z)) eqn:E.
  - apply andb_prop in E as [->%bool_decide_eq_true _].
    rewrite join_cons by apply splits_nonempty. simpl. by rewrite IH.
  - rewrite join_glue by apply splits_nonempty. simpl. by rewrite IH.
Qed.

Lemma separator_pos_split a alts j :
  alts ≠ [] → 0 < j →
  separator_pos (a :: alts) (S j) = length a + S (separator_pos alts j).
Proof.
  intros Hne Hj. unfold separator_pos.
  destruct j as [|j]; [lia|]. destruct alts as [|b r]; [done|].
  change (take (S (S j)) (a :: b :: r)) with (a :: take (S j) (b :: r)).
  rewrite join_cons by done. by rewrite length_app.
Qed.

Lemma separator_pos_1 a alts : separator_pos (a :: alts) 1 = length a.
Proof. unfold separator_pos. by destruct alts. Qed.

(** The separators are the commas met at level 0, for a scan entered at
    level [lvl]. *)
Lemma splits_separators chars : ∀ lvl k,
  chars !! k = Some comma →
  (lvl + net_level (take k chars) = 0)%Z ↔
  ∃ j, 0 < j < length (splits lvl chars) ∧ k = separator_pos (splits lvl chars) j.
Proof.
  induction chars as [|ch rest IH]; intros lvl k Hk; [done|].
  rewrite splits_cons.
  pose proof (splits_nonempty lvl rest) as Hne.
  pose proof (splits_nonempty (lvl + brace_delta ch) rest) as Hne'.
  destruct (bool_decide (ch = comma) && bool_decide (lvl = 0%Z)) eqn:E.
  - apply andb_prop in E as [->%bool_decide_eq_true ->%bool_decide_eq_true].
    destruct k as [|k]; simpl.
    + split; [intros _|done]. exists 1. rewrite separator_pos_1. simpl.
      split; [|done]. destruct (splits 0 rest); [done|simpl; lia].
    + simpl in Hk. rewrite (IH 0%Z k Hk). change (brace_delta comma) with 0%Z.
      split.
      * intros (j & Hj & ->). exists (S j).
        rewrite separator_pos_split by (done || lia). simpl. split; [lia|done].
      * intros (j & Hj & Heq). destruct j as [|[|j]]; [lia| |].
        { by rewrite separator_pos_1 in Heq. }
        rewrite separator_pos_split in Heq by (done || lia). simpl in *.
        exists (S j). split; [lia|]. by injection Heq.
  - destruct (splits (lvl + brace_delta ch) rest) as [|a r] eqn:EA; [done|].
    simpl glue. destruct k as [|k]; simpl.
    + injection Hk as ->. split.
      * intros Hl. rewrite bool_decide_eq_true_2 in E by done.
        rewrite bool_decide_eq_true_2 in E by lia. done.
      * intros (j & Hj & Heq). exfalso. unfold separator_pos in Heq.
        destruct j as [|j]; [lia|]. simpl in Heq.
        destruct (take j r); simpl in Heq; [done|].
        rewrite length_app in Heq. simpl in Heq. lia.
    + simpl in Hk. rewrite Z.add_assoc, (IH _ k Hk), EA.
      assert (Hsep : ∀ j, 0 < j →
        separator_pos ((ch :: a) :: r) j = S (separator_pos (a :: r) j)).
      { intros [|j] Hj; [lia|]. unfold separator_pos. simpl.
        by destruct (take j r). }
      split.
      * intros (j & Hj & ->). exists j. rewrite Hsep by lia. done.
      * intros (j & Hj & Heq). exists j. rewrite Hsep in Heq by lia.
        split; [done|]. by injection Heq.
Qed.

(** A string with no comma at level 0 is one alternative. *)
Lemma splits_single chars : ∀ lvl,
  (∀ k, chars !! k = Some comma → (lvl + net_level (take k chars))%Z ≠ 0%Z) →
  splits lvl chars = [chars].
Proof.
  induction chars as [|ch rest IH]; intros lvl H; [done|].
  rewrite splits_cons.
  destruct (bool_decide (ch = comma) && bool_decide (lvl = 0%Z)) eqn:E.
  - apply andb_prop in E as [->%bool_decide_eq_true ->%bool_decide_eq_true].
    by destruct (H 0).
  - rewrite IH; [done|]. intros k Hk.
    specialize (H (S k) Hk). simpl in H. lia.
Qed.

Lemma find_close_scan fuel : ∀ s i level,
  length s - i ≤ fuel →
  find_close fuel s i level = Some (close_scan (drop i s) i level).
Proof.
  induction fuel as [|fuel IH]; intros s i level Hfuel.
  - simpl. rewrite bool_decide_eq_false_2 by lia.
    by rewrite drop_ge by lia.
  - simpl. case_bool_decide as Hi; simpl.
    + destruct (lookup_lt_is_Some_2 s i Hi) as [ch Hch].
      rewrite (drop_S _ _ _ Hch). simpl.
      case_bool_decide; [|done].
      rewrite IH by lia. rewrite Hch, Nat.add_1_r.
      do 2 f_equal.
      repeat case_bool_decide; simplify_eq; done.
    + rewrite drop_ge by lia. done.
Qed.

Lemma close_scan_spec rest : ∀ i level,
  (0 ≤ level)%Z →
  ∀ i' level', close_scan rest i level = (i', level') →
    i ≤ i' ≤ i + length rest ∧ (0 ≤ level')%Z ∧
    ((0 < level')%Z → i' = i + length rest) ∧
    ((0 < level)%Z → level' = 0%Z → i < i') ∧
    scan_depth level rest = scan_depth level' (drop (i' - i) rest).
Proof.
  induction rest as [|ch rest IH]; intros i level Hl i' level' E; simpl in E.
  - simplify_eq. rewrite Nat.sub_diag. simpl. repeat split; lia.
  - case_bool_decide as Hpos.
    + apply IH in E as (Hi & Hl' & Hend & _ & Hscan);
        [|repeat case_bool_decide; lia].
      replace (i' - i) with (S (i' - (i + 1))) by lia. simpl.
      repeat split; try lia.
      rewrite <- Hscan. f_equal.
      repeat case_bool_decide; simpl; try done; lia.
    + simplify_eq. rewrite Nat.sub_diag. simpl. repeat split; lia.
Qed.

(** Text before the first opening brace leaves the depth at 0. *)
Lemma scan_depth_skip o : ∀ s,
  (∀ k, k < o → s !! k ≠ Some open_brace) →
  scan_depth 0 s = scan_depth 0 (drop o s).
Proof.
  induction o as [|o IH]; intros s H; [done|].
  destruct s as [|ch s]; [done|]. simpl.
  rewrite bool_decide_eq_false_2.
  2:{ intros ->. by apply (H 0); [lia|]. }
  rewrite andb_false_r. apply IH. intros k Hk. apply (H (S k)). lia.
Qed.

Lemma scan_depth_no_open s :
  (∀ k, s !! k ≠ Some open_brace) → scan_depth 0 s = 0%Z.
Proof.
  intros H. rewrite (scan_depth_skip (length s)) by auto.
  by rewrite drop_all.
Qed.

Section loops.
Variable expand_rec : jsstring → completion (list jsstring).

Lemma expand_scan_none fuel : ∀ s i,
  length s - i ≤ fuel →
  (∀ k, i ≤ k → s !! k ≠ Some open_brace) →
  expand_scan expand_rec fuel s i = Normal [s].
Proof.
  induction fuel as [|fuel IH]; intros s i Hfuel Hno; simpl.
  - by rewrite bool_decide_eq_false_2 by lia.
  - case_bool_decide; [|done].
    rewrite bool_decide_eq_false_2 by auto.
    apply IH; [lia|]. intros k Hk. apply Hno. lia.
Qed.

Lemma expand_scan_first fuel : ∀ s i o,
  length s - i ≤ fuel → i ≤ o →
  s !! o = Some open_brace →
  (∀ k, i ≤ k < o → s !! k ≠ Some open_brace) →
  expand_scan expand_rec fuel s i = expand_group expand_rec s o.
Proof.
  induction fuel as [|fuel IH]; intros s i o Hfuel Hio Ho Hno;
    pose proof (lookup_lt_Some _ _ _ Ho) as Hlen; simpl.
  - lia.
  - rewrite bool_decide_eq_true_2 by lia.
    destruct (decide (i = o)) as [->|Hne].
    + by rewrite bool_decide_eq_true_2.
    + rewrite bool_decide_eq_false_2 by (apply Hno; lia).
      apply IH; [lia..|done|]. intros k Hk. apply Hno. lia.
Qed.

Lemma for_variants_spec prefix suffix variants : ∀ expanded,
  variants ≠ [] →
  for_variants expand_rec prefix suffix variants expanded =
    match expand_rec suffix with
    | Normal tails =>
        Normal (expanded ++
          flat_map (λ variant, map (λ tail, prefix ++ variant ++ tail) tails)
            variants)
    | Throw msg => Throw msg
    | OutOfFuel => OutOfFuel
    end.
Proof.
  induction variants as [|v [|v' vs] IH]; intros expanded Hne; [done| |].
  - simpl. destruct (expand_rec suffix); try done.
    by rewrite app_nil_r.
  - specialize (λ e, IH e ltac:(done)).
    change (for_variants expand_rec prefix suffix (v :: v' :: vs) expanded)
      with (match expand_rec suffix with
            | Normal tails => for_variants expand_rec prefix suffix (v' :: vs)
                (expanded ++ map (λ tail, prefix ++ v ++ tail) tails)
            | Throw msg => Throw msg
            | OutOfFuel => OutOfFuel
            end).
    destruct (expand_rec suffix) eqn:E; try done.
    rewrite IH. by rewrite <- app_assoc.
Qed.
End loops.

(** Either [s] has no opening brace, or it has a first one. *)
Lemma first_open_cases (s : jsstring) :
  (∀ k, s !! k ≠ Some open_brace) ∨
  (∃ o, s !! o = Some open_brace ∧ ∀ k, k < o → s !! k ≠ Some open_brace).
Proof.
  destruct (list_find (λ ch, ch = open_brace) s) as [[o ch]|] eqn:E.
  - apply list_find_Some in E as (Ho & -> & Hbefore).
    right. exists o. split; [done|]. intros k Hk Hk'. by eapply Hbefore.
  - apply list_find_None in E. left. intros k Hk.
    rewrite Forall_forall in E. eapply E; [|done].
    by eapply list_elem_of_lookup_2.
Qed.

Lemma expand_fuel_S fuel s :
  expand_fuel (S fuel) s = expand_scan (expand_fuel fuel) (length s) s 0.
Proof. reflexivity. Qed.

(** With a budget above the length of [s], [expand] throws exactly when
    the scan of [s] ends inside a group, and returns an array otherwise. *)
Lemma expand_fuel_outcome fuel : ∀ s,
  length s ≤ fuel →
  (unclosed s → expand_fuel (S fuel) s = Throw "Unbalanced braces") ∧
  (¬ unclosed s → ∃ vals, expand_fuel (S fuel) s = Normal vals).
Proof.
  unfold unclosed.
  induction fuel as [|fuel IH]; intros s Hlen;
    (destruct (first_open_cases s) as [Hno|(o & Ho & Hbefore)];
     [ simpl; rewrite expand_scan_none by (done || lia);
       rewrite scan_depth_no_open by done; split; [lia|eauto] | ]);
    pose proof (lookup_lt_Some _ _ _ Ho) as Hlt; [lia|].
  rewrite expand_fuel_S.
  rewrite (expand_scan_first _ _ _ _ o) by (done || lia || (intros; apply Hbefore; lia)).
  unfold expand_group. rewrite find_close_scan by lia.
  destruct (close_scan (drop (o + 1) s) (o + 1) 1) as [i level] eqn:E.
  apply close_scan_spec in E as (Hi & Hl & Hend & Hclosed & Hscan); [|lia].
  rewrite (scan_depth_skip o) by done.
  rewrite (drop_S _ _ _ Ho). simpl scan_depth. change (0 + 1)%Z with 1%Z.
  rewrite <- Nat.add_1_r, Hscan.
  rewrite drop_drop.
  case_bool_decide as Hlevel.
  - rewrite length_drop in Hend. rewrite drop_ge by lia. simpl. split; [done|lia].
  - assert (level = 0%Z) as -> by lia.
    replace (o + 1 + (i - (o + 1))) with i by lia.
    rewrite for_variants_spec by apply splits_nonempty.
    unfold slice_from.
    assert (length (drop i s) ≤ fuel) as Hsuffix by (rewrite length_drop; lia).
    destruct (IH _ Hsuffix) as [Hthrow Hnormal].
    split.
    + intros Hu. by rewrite (Hthrow Hu).
    + intros Hu. destruct (Hnormal Hu) as [tails ->]. eauto.
Qed.

Lemma expand_outcome s :
  (unclosed s → expand s = Throw "Unbalanced braces") ∧
  (¬ unclosed s → ∃ vals, expand s = Normal vals).
Proof. by apply expand_fuel_outcome. Qed.

Lemma unclosed_dec s : Decision (unclosed s).
Proof. unfold unclosed. apply _. Qed.

(** An array of one element is yielded as it is. *)
Lemma expand_no_open s :
  (∀ k, s !! k ≠ Some open_brace) → expand s = Normal [s].
Proof.
  intros H. unfold expand. simpl. apply expand_scan_none; [lia|auto].
Qed.

(** *** The [seen] loop *)

Lemma elem_of_yield_loop vals : ∀ seen x,
  x ∈ yield_loop vals seen ↔ x ∈ vals ∧ x ∉ seen.
Proof.
  induction vals as [|v vals IH]; intros seen x; simpl.
  - rewrite elem_of_nil. tauto.
  - case_bool_decide as Hv.
    + rewrite IH, elem_of_cons. split; [tauto|].
      intros [[->|Hx] Hseen]; [done|tauto].
    + rewrite !elem_of_cons, IH, elem_of_union, elem_of_singleton.
      destruct (decide (x = v)) as [->|Hne]; [|tauto].
      split; [tauto|]. intros _. by left.
Qed.

Lemma NoDup_yield_loop vals : ∀ seen, NoDup (yield_loop vals seen).
Proof.
  induction vals as [|v vals IH]; intros seen; simpl.
  - constructor.
  - case_bool_decide; [done|].
    constructor; [|done]. rewrite elem_of_yield_loop.
    intros [_ Hv]. apply Hv, elem_of_union_l. by apply elem_of_singleton.
Qed.

Lemma yield_loop_kept vals : ∀ earlier,
  yield_loop vals (list_to_set earlier) =
  omap (kept_at (earlier ++ vals)) (seq (length earlier) (length vals)).
Proof.
  induction vals as [|v vals IH]; intros earlier; [done|].
  cbn [yield_loop length seq omap list_omap].
  unfold kept_at at 1.
  rewrite lookup_app_r, Nat.sub_diag by lia. cbn [lookup list_lookup].
  rewrite take_app_length.
  replace (earlier ++ v :: vals) with ((earlier ++ [v]) ++ vals)
    by by rewrite <- app_assoc.
  replace (S (length earlier)) with (length (earlier ++ [v]))
    by (rewrite length_app; simpl; lia).
  rewrite <- IH.
  rewrite (bool_decide_ext (v ∈ (list_to_set earlier : gset jsstring)) (v ∈ earlier))
    by apply elem_of_list_to_set.
  case_bool_decide as Hv; f_equal.
  - apply set_eq. intros y.
    rewrite !elem_of_list_to_set, elem_of_app, list_elem_of_singleton.
    split; [tauto|]. intros [Hy| ->]; done.
  - f_equal. apply set_eq. intros y.
    rewrite elem_of_union, !elem_of_list_to_set, elem_of_app,
      list_elem_of_singleton, elem_of_singleton.
    tauto.
Qed.

Lemma yield_loop_first_occurrences vals :
  yield_loop vals ∅ = first_occurrences vals.
Proof. apply (yield_loop_kept vals []). Qed.

(** *** Separators and depth *)

Lemma join_separator alts : ∀ j,
  0 < j < length alts →
  join_commas alts !! separator_pos alts j = Some comma.
Proof.
  induction alts as [|a alts IH]; intros j Hj; simpl in Hj; [lia|].
  assert (alts ≠ []) as Hne by (destruct alts; simpl in *; [lia|done]).
  rewrite join_cons by done.
  destruct j as [|[|j]]; [lia| |].
  - rewrite separator_pos_1. by rewrite list_lookup_middle.
  - rewrite separator_pos_split by (done || lia).
    rewrite lookup_app_r by lia.
    replace (length a + S (separator_pos alts (S j)) - length a)
      with (S (separator_pos alts (S j))) by lia.
    simpl. apply IH. lia.
Qed.

Lemma splitCommaSafe_splits s : splitCommaSafe s = splits 0 s.
Proof. reflexivity. Qed.

(** *** The stated properties *)

(** C1. On ['thumbnail.{png,jp{e,}g}'] the code yields ['thumbnail.png']
    and ['thumbnail.jp{e,}g']: the group nested inside the second
    alternative is copied out unexpanded, where the claim (and the
    function's own documentation) gives ['thumbnail.jpeg'] and
    ['thumbnail.jpg']. *)
Theorem expandBraces_nested_group_unexpanded :
  expandBraces (js "thumbnail.{png,jp{e,}g}")
  = Normal [js "thumbnail.png"; js "thumbnail.jp{e,}g"].
Proof. vm_compute. reflexivity. Qed.

(** The same on the second documented example: the inner group of the
    first alternative stays as written. *)
Example expandBraces_itemize :
  expandBraces (js "It{{em,alic}iz,erat}e{d,}, please.")
  = Normal [js "It{em,alic}ized, please."; js "It{em,alic}ize, please.";
            js "Iterated, please."; js "Iterate, please."].
Proof. vm_compute. reflexivity. Qed.

(** C3. ['~/{Downloads,Pictures}/*.{jpg,gif,png}'] yields the six
    combinations, each once, Downloads before Pictures and jpg, gif, png
    within each. *)
Theorem expandBraces_downloads_pictures :
  expandBraces (js "~/{Downloads,Pictures}/*.{jpg,gif,png}")
  = Normal [js "~/Downloads/*.jpg"; js "~/Downloads/*.gif";
            js "~/Downloads/*.png"; js "~/Pictures/*.jpg";
            js "~/Pictures/*.gif"; js "~/Pictures/*.png"].
Proof. vm_compute. reflexivity. Qed.

(** C4. When [expand] returns the raw expansion [vals], the generator
    yields no string twice: it yields each string of [vals] once, at the
    place of its first generation, the kept strings in generation order. *)
Theorem expandBraces_first_occurrences (str : jsstring) (vals : list jsstring) :
  expand str = Normal vals →
  ∃ out, expandBraces str = Normal out ∧
    NoDup out ∧ (∀ x, x ∈ out ↔ x ∈ vals) ∧ out = first_occurrences vals.
Proof.
  intros E. exists (yield_loop vals ∅). unfold expandBraces. rewrite E.
  split_and!.
  - done.
  - apply NoDup_yield_loop.
  - intros x. rewrite elem_of_yield_loop.
    split; [tauto|]. intros Hx. split; [done|]. apply not_elem_of_empty.
  - apply yield_loop_first_occurrences.
Qed.

Lemma expandBraces_first_occurrences_witness :
  expand (js "{a,a}b{,}") = Normal [js "ab"; js "ab"; js "ab"; js "ab"] ∧
  ∃ out, expandBraces (js "{a,a}b{,}") = Normal out ∧
    NoDup out ∧
    (∀ x, x ∈ out ↔ x ∈ [js "ab"; js "ab"; js "ab"; js "ab"]) ∧
    out = first_occurrences [js "ab"; js "ab"; js "ab"; js "ab"].
Proof.
  assert (E : expand (js "{a,a}b{,}") = Normal [js "ab"; js "ab"; js "ab"; js "ab"])
    by (vm_compute; reflexivity).
  split; [exact E|].
  exact (expandBraces_first_occurrences _ _ E).
Defined.

(** C5. The alternatives of [splitCommaSafe s], joined with commas, give
    [s] back, and the commas that separate them are exactly the commas of
    [s] at depth 0: a comma at any other depth stays inside its
    alternative. *)
Theorem splitCommaSafe_depth_zero_commas (s : jsstring) :
  join_commas (splitCommaSafe s) = s ∧
  ∀ k, s !! k = Some comma ∧ depth_at s k = 0%Z ↔
       ∃ j, 0 < j < length (splitCommaSafe s) ∧
            k = separator_pos (splitCommaSafe s) j.
Proof.
  rewrite splitCommaSafe_splits. split; [apply join_splits|].
  intros k. split.
  - intros [Hk Hd]. apply (splits_separators s 0%Z k Hk). by rewrite Z.add_0_l.
  - intros (j & Hj & ->).
    pose proof (join_separator _ _ Hj) as Hsep. rewrite join_splits in Hsep.
    split; [done|].
    pose proof (splits_separators s 0%Z _ Hsep) as [_ H].
    rewrite Z.add_0_l in H. apply H. eauto.
Qed.

(** C6. A string with no opening brace (the empty string, a string with
    closing braces only) is yielded unchanged, as the only value. *)
Theorem expandBraces_no_open_brace (s : jsstring) :
  open_brace ∉ s → expandBraces s = Normal [s].
Proof.
  intros H. unfold expandBraces. rewrite expand_no_open; [done|].
  intros k Hk. apply H. by eapply list_elem_of_lookup_2.
Qed.

Lemma expandBraces_no_open_brace_witness :
  (open_brace ∉ js "a,b}") ∧ expandBraces (js "a,b}") = Normal [js "a,b}"].
Proof.
  assert (H : open_brace ∉ (js "a,b}"))
    by (apply (bool_decide_unpack _); vm_compute; exact I).
  split; [exact H|exact (expandBraces_no_open_brace _ H)].
Defined.

(** C8. Content with no comma at depth 0 (comma-free content in
    particular) is a single alternative, the whole content; ['{abc}']
    yields ['abc'] alone. *)
Theorem splitCommaSafe_single_alternative (s : jsstring) :
  (∀ k, s !! k = Some comma → depth_at s k ≠ 0%Z) →
  splitCommaSafe s = [s] ∧ expandBraces (js "{abc}") = Normal [js "abc"].
Proof.
  intros H. split; [|by vm_compute].
  rewrite splitCommaSafe_splits. apply splits_single.
  intros k Hk. rewrite Z.add_0_l. by apply H.
Qed.

Lemma comma_free_depth (s : jsstring) :
  comma ∉ s → ∀ k, s !! k = Some comma → depth_at s k ≠ 0%Z.
Proof. intros H k Hk. destruct H. by eapply list_elem_of_lookup_2. Qed.

Lemma splitCommaSafe_single_alternative_witness :
  (∀ k, js "abc" !! k = Some comma → depth_at (js "abc") k ≠ 0%Z) ∧
  splitCommaSafe (js "abc") = [js "abc"] ∧
  expandBraces (js "{abc}") = Normal [js "abc"].
Proof.
  assert (Hfree : comma ∉ (js "abc"))
    by (apply (bool_decide_unpack _); vm_compute; exact I).
  split; [exact (comma_free_depth _ Hfree)|].
  exact (splitCommaSafe_single_alternative _ (comma_free_depth _ Hfree)).
Defined.

End BracesFacts.

(** ** Facts about generator objects *)

Module GeneratorFacts.
Import Braces BracesSpec BracesFacts Generator.

Lemma resume_spec vals : ∀ seen,
  match resume vals seen with
  | (Normal (Some v), SuspendedYield rest seen') =>
      yield_loop vals seen = v :: yield_loop rest seen' ∧ length rest < length vals
  | (Normal None, Completed) => yield_loop vals seen = []
  | _ => False
  end.
Proof.
  induction vals as [|val vals IH]; intros seen; simpl; [done|].
  case_bool_decide.
  - specialize (IH seen).
    destruct (resume vals seen) as [[[v|]| |] [ | |]]; try done.
    destruct IH. split; [done|lia].
  - split; [done|lia].
Qed.

(** Draining the object allocated last only changes that object. *)
Lemma heap_next_last (h : heap) gen :
  heap_next (length h) (h ++ [gen]) = ((next gen).1, h ++ [(next gen).2]).
Proof.
  unfold heap_next. rewrite lookup_app_r, Nat.sub_diag by lia. simpl.
  destruct (next gen) as [r gen']. simpl. f_equal.
  rewrite insert_app_r_alt, Nat.sub_diag by lia. done.
Qed.

Lemma drain_suspended fuel : ∀ (h : heap) rest seen received,
  length rest < fuel →
  drain fuel (length h) (h ++ [SuspendedYield rest seen]) received
  = ((received ++ yield_loop rest seen, Normal ()), h ++ [Completed]).
Proof.
  induction fuel as [|fuel IH]; intros h rest seen received Hfuel; [lia|].
  simpl. rewrite heap_next_last. simpl.
  pose proof (resume_spec rest seen) as Hres.
  destruct (resume rest seen) as [[[v|]| |] [ | rest' seen' |]]; try done; simpl.
  - destruct Hres as [-> Hlen]. rewrite IH by lia.
    by rewrite <- app_assoc.
  - by rewrite Hres, app_nil_r.
Qed.

Lemma call_and_drain_spec str (h : heap) extra :
  call_and_drain (budget str + extra) str h
  = (observe (expandBraces str), h ++ [Completed]).
Proof.
  unfold call_and_drain, call_expandBraces, budget, expandBraces.
  destruct (expand str) as [vals|msg|] eqn:E; simpl.
  - rewrite heap_next_last. simpl. rewrite E.
    pose proof (resume_spec vals ∅) as Hres.
    destruct (resume vals ∅) as [[[v|]| |] [ | rest' seen' |]]; try done; simpl.
    + destruct Hres as [-> Hlen]. rewrite drain_suspended by lia. done.
    + by rewrite Hres.
  - rewrite heap_next_last. simpl. by rewrite E.
  - rewrite heap_next_last. simpl. by rewrite E.
Qed.

(** C2, as stated, fails: on ['a,b}'], a closing brace with no opener,
    nothing is thrown and the input itself is yielded. *)
Lemma expandBraces_unmatched_close_no_throw :
  expandBraces (js "a,b}") = Normal [js "a,b}"] ∧
  ∀ msg, expandBraces (js "a,b}") ≠ Throw msg.
Proof. split; [|intros msg]; vm_compute; [reflexivity|discriminate]. Qed.

(** C2, amended. [expandBraces] throws exactly when an opening brace has
    no matching close (the scan ends at a positive depth), the exception
    is [Error('Unbalanced braces')], and every other input is expanded to
    a sequence.  A consumer of the generator of such an input gets the
    exception from its first [next()], having received no value.
    ['{a,b'] throws; ['a,b}'] does not and yields itself. *)
Theorem expandBraces_throws_iff_unclosed (s : jsstring) :
  (expandBraces s = Throw "Unbalanced braces" ↔ unclosed s) ∧
  ((∃ out, expandBraces s = Normal out) ↔ ¬ unclosed s) ∧
  (unclosed s ↔
   ∀ h, (call_and_drain (budget s) s h).1 = ([], Throw "Unbalanced braces")) ∧
  expandBraces (js "{a,b") = Throw "Unbalanced braces" ∧
  expandBraces (js "a,b}") = Normal [js "a,b}"].
Proof.
  destruct (expand_outcome s) as [Hthrow Hnormal]. unfold expandBraces.
  split_and!; [| | |by vm_compute..].
  - destruct (unclosed_dec s) as [Hu|Hu].
    + by rewrite (Hthrow Hu).
    + destruct (Hnormal Hu) as [vals ->]. split; [done|tauto].
  - destruct (unclosed_dec s) as [Hu|Hu].
    + rewrite (Hthrow Hu). split; [by intros [? ?]|tauto].
    + destruct (Hnormal Hu) as [vals ->]. split; [done|eauto].
  - setoid_rewrite <- (Nat.add_0_r (budget s)).
    setoid_rewrite call_and_drain_spec. unfold expandBraces. simpl.
    destruct (unclosed_dec s) as [Hu|Hu].
    + by rewrite (Hthrow Hu).
    + destruct (Hnormal Hu) as [vals ->]. simpl. split; [tauto|].
      intros H. by specialize (H []).
Qed.

(** C7. A call of [expandBraces(str)] yields the same sequence whatever
    generator objects earlier calls left behind, in whatever state: the
    sequence is a function of [str] alone, so two separate calls on the
    same string, the second made after the first was consumed, yield
    identical sequences. *)
Theorem expandBraces_deterministic
    (str : jsstring) (h h' : heap) (extra extra' : nat) :
  (call_and_drain (budget str + extra) str h).1
    = (call_and_drain (budget str + extra') str h').1 ∧
  (call_and_drain (budget str + extra) str h).1 = observe (expandBraces str) ∧
  (call_and_drain (budget str + extra') str
     (call_and_drain (budget str + extra) str h).2).1
    = (call_and_drain (budget str + extra) str h).1.
Proof. by rewrite !call_and_drain_spec. Qed.

End GeneratorFacts.

(** ** Further facts about brace expansion *)

Module BracesMoreFacts.
Import Braces BracesSpec BracesPatterns BracesFacts.

(** *** The recursion equation of [expand] *)

Lemma close_scan_bounds rest i level i' level' :
  close_scan rest i level = (i', level') → i ≤ i'.
Proof.
  revert i level. induction rest as [|ch rest IH]; intros i level; simpl.
  - intros [= <- _]. lia.
  - case_bool_decide; [|intros [= <- _]; lia].
    intros E%IH. lia.
Qed.

(** [expand_group] calls [expand_rec] on suffixes that start after the
    opening brace only. *)
Lemma expand_group_ext rec1 rec2 s o :
  (∀ i, o < i → rec1 (drop i s) = rec2 (drop i s)) →
  expand_group rec1 s o = expand_group rec2 s o.
Proof.
  intros Hrec. unfold expand_group. rewrite find_close_scan by lia.
  destruct (close_scan (drop (o + 1) s) (o + 1) 1) as [i level] eqn:E.
  apply close_scan_bounds in E.
  case_bool_decide; [done|].
  rewrite !for_variants_spec by apply splits_nonempty.
  unfold slice_from. by rewrite Hrec by lia.
Qed.

Lemma expand_fuel_first fuel s o :
  length s ≤ fuel → s !! o = Some open_brace →
  (∀ k, k < o → s !! k ≠ Some open_brace) →
  expand_fuel (S fuel) s = expand_group (expand_fuel fuel) s o.
Proof.
  intros Hfuel Ho Hbefore. rewrite expand_fuel_S.
  apply expand_scan_first; [lia|lia|done|].
  intros k Hk. apply Hbefore. lia.
Qed.

(** Any budget above the length of the string gives the same result. *)
Lemma expand_fuel_stable fuel : ∀ s,
  length s < fuel → expand_fuel fuel s = expand s.
Proof.
  induction fuel as [fuel IH] using lt_wf_ind. intros s Hlen.
  destruct fuel as [|fuel]; [lia|]. unfold expand.
  destruct (first_open_cases s) as [Hno|(o & Ho & Hbefore)].
  - rewrite !expand_fuel_S, !expand_scan_none by (auto || lia). done.
  - pose proof (lookup_lt_Some _ _ _ Ho) as Hlt.
    rewrite !(expand_fuel_first _ s o) by (done || lia).
    apply expand_group_ext. intros i Hi.
    rewrite !IH by (rewrite ?length_drop; lia). done.
Qed.

Lemma expand_unfold s o :
  s !! o = Some open_brace →
  (∀ k, k < o → s !! k ≠ Some open_brace) →
  expand s = expand_group expand s o.
Proof.
  intros Ho Hbefore. pose proof (lookup_lt_Some _ _ _ Ho) as Hlt.
  unfold expand at 1. rewrite (expand_fuel_first _ s o) by (done || lia).
  apply expand_group_ext. intros i Hi.
  apply expand_fuel_stable. rewrite length_drop. lia.
Qed.

(** The inner loop runs through text that keeps the level positive. *)
Lemma close_scan_app inner : ∀ i level rest,
  (∀ k, 0 < level + net_level (take k inner))%Z →
  close_scan (inner ++ rest) i level =
  close_scan rest (i + length inner) (level + net_level inner).
Proof.
  induction inner as [|ch inner IH]; intros i level rest Hpos; simpl.
  - by rewrite Nat.add_0_r, Z.add_0_r.
  - pose proof (Hpos 0) as H0. simpl in H0.
    rewrite bool_decide_eq_true_2 by lia.
    rewrite IH.
    + f_equal; [lia|]. unfold brace_delta.
      repeat case_bool_decide; simplify_eq; lia.
    + intros k. specialize (Hpos (S k)). simpl in Hpos.
      unfold brace_delta in Hpos.
      repeat case_bool_decide; simplify_eq; lia.
Qed.

Lemma close_scan_balanced inner i rest :
  balanced inner →
  close_scan (inner ++ close_brace :: rest) i 1 = (i + length inner + 1, 0%Z).
Proof.
  intros [Hnet Hpre]. rewrite close_scan_app.
  2:{ intros k. specialize (Hpre k). unfold depth_at in Hpre. lia. }
  rewrite Hnet. simpl.
  by destruct rest.
Qed.

Lemma lookup_prefix_open (prefix rest : jsstring) :
  open_brace ∉ prefix →
  (prefix ++ open_brace :: rest) !! length prefix = Some open_brace ∧
  ∀ k, k < length prefix → (prefix ++ open_brace :: rest) !! k ≠ Some open_brace.
Proof.
  intros Hno. split; [by rewrite list_lookup_middle|].
  intros k Hk. rewrite lookup_app_l by done. intros Hin.
  apply Hno. by eapply list_elem_of_lookup_2.
Qed.

Lemma drop_after {A} (p : list A) x r : drop (length p + 1) (p ++ x :: r) = r.
Proof.
  rewrite (cons_middle x p r), app_assoc.
  apply drop_app_length'. rewrite length_app. simpl. lia.
Qed.

Lemma expand_one_group prefix inner suffix :
  open_brace ∉ prefix → balanced inner →
  expand (prefix ++ open_brace :: inner ++ close_brace :: suffix) =
    match expand suffix with
    | Normal tails =>
        Normal (flat_map
                  (λ variant, map (λ tail, prefix ++ variant ++ tail) tails)
                  (splitCommaSafe inner))
    | Throw msg => Throw msg
    | OutOfFuel => OutOfFuel
    end.
Proof.
  intros Hno Hbal.
  destruct (lookup_prefix_open prefix (inner ++ close_brace :: suffix) Hno)
    as [Ho Hbefore].
  rewrite (expand_unfold _ _ Ho Hbefore).
  unfold expand_group. rewrite find_close_scan by lia.
  rewrite drop_after, close_scan_balanced by done. simpl.
  rewrite for_variants_spec by apply splits_nonempty.
  unfold slice, slice_from. rewrite drop_after.
  replace (drop (length prefix + 1 + length inner + 1) _) with suffix.
  2:{ replace (length prefix + 1 + length inner + 1)
        with (length prefix + 1 + (length inner + 1)) by lia.
      by rewrite <- drop_drop, drop_after, drop_after. }
  rewrite take_app_length' by lia.
  rewrite Nat.sub_0_r, drop_0, take_app_length.
  by destruct (expand suffix).
Qed.

(** What [expand] returns on any string. *)
Lemma expand_cases s :
  ((open_brace ∉ s) ∧ expand s = Normal [s]) ∨
  ∃ o i, s !! o = Some open_brace ∧ (open_brace ∉ take o s) ∧ o < i ∧
    (expand s = Throw "Unbalanced braces" ∨
     expand s =
       match expand (drop i s) with
       | Normal tails =>
           Normal (flat_map
                     (λ variant, map (λ tail, take o s ++ variant ++ tail) tails)
                     (splitCommaSafe (slice s (o + 1) (i - 1))))
       | Throw msg => Throw msg
       | OutOfFuel => OutOfFuel
       end).
Proof.
  destruct (first_open_cases s) as [Hno|(o & Ho & Hbefore)].
  - left. split; [|by apply expand_no_open].
    intros [k Hk]%list_elem_of_lookup. by apply (Hno k).
  - right. rewrite (expand_unfold _ _ Ho Hbefore).
    unfold expand_group. rewrite find_close_scan by lia.
    destruct (close_scan (drop (o + 1) s) (o + 1) 1) as [i level] eqn:E.
    apply close_scan_bounds in E. exists o, i.
    split_and!; [done| |lia|].
    + intros [k Hk]%list_elem_of_lookup.
      apply lookup_take_Some in Hk as [Hk Hlt]. by apply (Hbefore k).
    + case_bool_decide; [by left|right].
      rewrite for_variants_spec by apply splits_nonempty.
      unfold slice, slice_from. by rewrite Nat.sub_0_r, drop_0.
Qed.

Lemma flat_map_nonempty {A B} (f : A → list B) (l : list A) :
  l ≠ [] → (∀ a, f a ≠ []) → flat_map f l ≠ [].
Proof.
  destruct l as [|a l]; [done|]. intros _ Hf. simpl.
  specialize (Hf a). by destruct (f a).
Qed.

Lemma expand_nonempty s : expand s ≠ Normal [].
Proof.
  remember (length s) as n eqn:Hn. revert s Hn.
  induction n as [n IH] using lt_wf_ind. intros s ->.
  destruct (expand_cases s) as [[_ ->]|(o & i & Ho & _ & Hi & [->| ->])];
    [done..|].
  pose proof (lookup_lt_Some _ _ _ Ho) as Hlt.
  specialize (IH (length (drop i s)) ltac:(rewrite length_drop; lia) _ eq_refl).
  destruct (expand (drop i s)) as [tails| |]; [|done..].
  intros [= Hnil]. revert Hnil. apply flat_map_nonempty.
  - apply splits_nonempty.
  - intros a. destruct tails; [done|]. done.
Qed.

(** *** Splitting joined alternatives *)

Lemma splits_app_nosplit a : ∀ lvl rest,
  (∀ k, a !! k = Some comma → (lvl + net_level (take k a))%Z ≠ 0%Z) →
  splits lvl (a ++ rest) = glue a (splits (lvl + net_level a) rest).
Proof.
  induction a as [|ch a IH]; intros lvl rest Hno; simpl.
  - rewrite Z.add_0_r. symmetry. apply glue_nil, splits_nonempty.
  - rewrite splits_cons.
    destruct (bool_decide (ch = comma) && bool_decide (lvl = 0%Z)) eqn:E.
    + apply andb_prop in E as [->%bool_decide_eq_true ->%bool_decide_eq_true].
      by destruct (Hno 0).
    + rewrite IH.
      * rewrite Z.add_assoc.
        pose proof (splits_nonempty (lvl + brace_delta ch + net_level a) rest).
        by destruct (splits _ rest).
      * intros k Hk. specialize (Hno (S k) Hk). simpl in Hno. lia.
Qed.

Lemma split_join alts :
  alts ≠ [] →
  Forall (λ a, net_level a = 0%Z ∧
               ∀ k, a !! k = Some comma → depth_at a k ≠ 0%Z) alts →
  splitCommaSafe (join_commas alts) = alts.
Proof.
  rewrite splitCommaSafe_splits.
  induction alts as [|a alts IH]; [done|]. intros _ Hall.
  apply Forall_cons in Hall as [[Hnet Hno] Hall].
  destruct alts as [|b alts].
  - simpl. apply splits_single. intros k Hk. rewrite Z.add_0_l. by apply Hno.
  - rewrite join_cons by done.
    rewrite splits_app_nosplit
      by (intros k Hk; rewrite Z.add_0_l; by apply Hno).
    rewrite Hnet. change (0 + 0)%Z with 0%Z. rewrite splits_cons.
    rewrite !bool_decide_eq_true_2 by done. cbn [andb].
    rewrite IH by done. simpl. by rewrite app_nil_r.
Qed.

Lemma plain_net_level a k : open_brace ∉ a → close_brace ∉ a → net_level (take k a) = 0%Z.
Proof.
  revert k. induction a as [|ch a IH]; intros k Ho Hc; [by destruct k|].
  destruct k as [|k]; [done|]. simpl.
  apply not_elem_of_cons in Ho as [Ho1 Ho2].
  apply not_elem_of_cons in Hc as [Hc1 Hc2].
  rewrite IH by done. unfold brace_delta.
  by rewrite !bool_decide_eq_false_2 by done.
Qed.

Lemma plain_balanced_join alts :
  Forall plain alts → balanced (join_commas alts).
Proof.
  intros Hall.
  assert ((open_brace ∉ join_commas alts) ∧ (close_brace ∉ join_commas alts))
    as [Ho Hc].
  { induction Hall as [|a alts [Ho [Hc _]] Hall IH]; [by split; apply not_elem_of_nil|].
    destruct alts as [|b alts]; [done|].
    rewrite join_cons by done. destruct IH as [IHo IHc].
    split; rewrite elem_of_app, elem_of_cons; intros [?|[?|?]]; done. }
  split.
  - rewrite <- (take_ge (join_commas alts) (length (join_commas alts))) by lia.
    by apply plain_net_level.
  - intros k. unfold depth_at. by rewrite plain_net_level.
Qed.

Lemma plain_split_join alts :
  alts ≠ [] → Forall plain alts → splitCommaSafe (join_commas alts) = alts.
Proof.
  intros Hne Hall. apply split_join; [done|].
  eapply Forall_impl; [done|]. intros a (Ho & Hc & Hcomma). split.
  - rewrite <- (take_ge a (length a)) by lia. by apply plain_net_level.
  - intros k Hk. destruct Hcomma. by eapply list_elem_of_lookup_2.
Qed.

(** *** Patterns without nesting *)

Lemma expand_render_groups gs : ∀ lit0,
  open_brace ∉ lit0 → flat_groups gs →
  expand (render lit0 gs) = Normal (combinations lit0 gs).
Proof.
  unfold render.
  induction gs as [|[alts lit] gs IH]; intros lit0 Hlit Hflat.
  - simpl. rewrite app_nil_r. apply expand_no_open.
    intros k Hk. apply Hlit. by eapply list_elem_of_lookup_2.
  - apply Forall_cons in Hflat as [(Hne & Hplain & Hlit') Hflat].
    simpl in *.
    rewrite expand_one_group by (done || by apply plain_balanced_join).
    rewrite IH by done.
    by rewrite plain_split_join.
Qed.

Lemma yield_loop_NoDup vals : ∀ seen,
  NoDup vals → (∀ x, x ∈ vals → x ∉ seen) → yield_loop vals seen = vals.
Proof.
  induction vals as [|v vals IH]; intros seen Hnd Hfresh; [done|].
  apply NoDup_cons in Hnd as [Hv Hnd]. simpl.
  rewrite bool_decide_eq_false_2 by (apply Hfresh; left).
  f_equal. apply IH; [done|].
  intros x Hx [->%elem_of_singleton|Hs]%elem_of_union; [done|].
  by apply (Hfresh x); [right|].
Qed.

Lemma expand_keeps_prefix prefix rest vals x :
  open_brace ∉ prefix →
  expand (prefix ++ rest) = Normal vals → x ∈ vals → prefix `prefix_of` x.
Proof.
  intros Hno Hexp Hx.
  destruct (expand_cases (prefix ++ rest))
    as [[_ E]|(o & i & Ho & Hnone & Hi & [E|E])]; rewrite E in Hexp.
  - injection Hexp as <-. apply list_elem_of_singleton in Hx as ->.
    by apply prefix_app_r.
  - done.
  - assert (length prefix ≤ o) as Hle.
    { destruct (decide (length prefix ≤ o)) as [|Hlt]; [done|].
      rewrite lookup_app_l in Ho by lia. destruct Hno.
      by eapply list_elem_of_lookup_2. }
    destruct (expand (drop i (prefix ++ rest))) as [tails| |]; [|done..].
    injection Hexp as <-.
    apply list_elem_of_In, in_flat_map in Hx as (variant & _ & Hx).
    apply in_map_iff in Hx as (tail & <- & _).
    rewrite take_app_ge by done.
    rewrite <- app_assoc. by apply prefix_app_r.
Qed.

(** *** The stated properties *)

(** X1. The recursion of [expand] on a string whose first group is
    [{inner}], after text [prefix] with no opening brace: the result is,
    for every alternative of [inner] in order and every expansion [tail]
    of the text after the group in order, [prefix + alternative + tail];
    an exception of the expansion of the rest is passed on. *)
Theorem expand_first_group (prefix inner suffix : jsstring) :
  open_brace ∉ prefix → balanced inner →
  expand (prefix ++ open_brace :: inner ++ close_brace :: suffix) =
    match expand suffix with
    | Normal tails =>
        Normal (flat_map
                  (λ variant, map (λ tail, prefix ++ variant ++ tail) tails)
                  (splitCommaSafe inner))
    | Throw msg => Throw msg
    | OutOfFuel => OutOfFuel
    end.
Proof. apply expand_one_group. Qed.

Lemma expand_first_group_witness :
  (open_brace ∉ js "a") ∧ balanced (js "b,{c}") ∧
  expand (js "a{b,{c}}d") = Normal [js "abd"; js "a{c}d"].
Proof.
  assert (Hno : open_brace ∉ js "a")
    by (apply (bool_decide_unpack _); vm_compute; exact I).
  assert (Hbal : balanced (js "b,{c}")).
  { split; [reflexivity|].
    intros k. unfold depth_at.
    do 6 (destruct k as [|k]; [by vm_compute|]). by vm_compute. }
  split; [exact Hno|]. split; [exact Hbal|].
  exact (expand_first_group (js "a") (js "b,{c}") (js "d") Hno Hbal).
Defined.

(** X2. On a pattern without nesting (literal text with no opening
    brace, groups of alternatives free of braces and commas) the raw
    expansion is the list of all combinations, one alternative per
    group, the alternatives of an earlier group varying slowest; the
    generator yields the first occurrences of that list. *)
Theorem expandBraces_flat_pattern (lit0 : jsstring) (gs : groups) :
  open_brace ∉ lit0 → flat_groups gs →
  expand (render lit0 gs) = Normal (combinations lit0 gs) ∧
  expandBraces (render lit0 gs) = Normal (first_occurrences (combinations lit0 gs)).
Proof.
  intros Hlit Hflat. unfold expandBraces.
  rewrite expand_render_groups by done.
  by rewrite yield_loop_first_occurrences.
Qed.

Lemma expandBraces_flat_pattern_witness :
  (open_brace ∉ js "x") ∧
  flat_groups [([js "a"; js "b"], js "-"); ([js "c"; js ""], js "}")] ∧
  expand (js "x{a,b}-{c,}}") = Normal [js "xa-c}"; js "xa-}"; js "xb-c}"; js "xb-}"].
Proof.
  assert (Hplain : ∀ a : jsstring,
    bool_decide ((open_brace ∉ a) ∧ (close_brace ∉ a) ∧ (comma ∉ a)) = true → plain a)
    by (intros a; apply bool_decide_eq_true_1).
  assert (Hno : ∀ a : jsstring, bool_decide (open_brace ∉ a) = true → open_brace ∉ a)
    by (intros a; apply bool_decide_eq_true_1).
  assert (Hlit : open_brace ∉ js "x") by (apply Hno; vm_compute; reflexivity).
  assert (Hflat : flat_groups [([js "a"; js "b"], js "-"); ([js "c"; js ""], js "}")]).
  { repeat (apply Forall_cons_2 || apply Forall_nil_2);
      (split_and!;
       [ done
       | repeat (apply Forall_cons_2 || apply Forall_nil_2);
           apply Hplain; vm_compute; reflexivity
       | apply Hno; vm_compute; reflexivity ]). }
  split; [exact Hlit|]. split; [exact Hflat|].
  exact (proj1 (expandBraces_flat_pattern _ _ Hlit Hflat)).
Defined.

(** X3. Splitting undoes joining: alternatives that are balanced in count
    and have no comma at their own depth 0, joined with commas, are split
    into the same alternatives. *)
Theorem splitCommaSafe_join_commas (alts : list jsstring) :
  alts ≠ [] →
  Forall (λ a, net_level a = 0%Z ∧
               ∀ k, a !! k = Some comma → depth_at a k ≠ 0%Z) alts →
  splitCommaSafe (join_commas alts) = alts.
Proof. apply split_join. Qed.

Lemma splitCommaSafe_join_commas_witness :
  [js "a"; js ""; js "bc"] ≠ [] ∧
  Forall (λ a, net_level a = 0%Z ∧
               ∀ k, a !! k = Some comma → depth_at a k ≠ 0%Z)
         [js "a"; js ""; js "bc"] ∧
  splitCommaSafe (js "a,,bc") = [js "a"; js ""; js "bc"].
Proof.
  assert (Hne : [js "a"; js ""; js "bc"] ≠ []) by discriminate.
  assert (Hall : Forall (λ a, net_level a = 0%Z ∧
               ∀ k, a !! k = Some comma → depth_at a k ≠ 0%Z)
         [js "a"; js ""; js "bc"]).
  { repeat constructor; try reflexivity;
      intros k Hk; apply list_elem_of_lookup_2 in Hk;
      exfalso; revert Hk; apply (bool_decide_unpack _); vm_compute; exact I. }
  split; [exact Hne|]. split; [exact Hall|].
  exact (splitCommaSafe_join_commas _ Hne Hall).
Defined.

(** X4. The [seen] set changes nothing when the raw expansion has no
    repeated string, and only then: the generator yields the raw
    expansion as it is exactly when no string occurs twice in it. *)
Theorem expandBraces_raw_iff_NoDup (str : jsstring) (vals : list jsstring) :
  expand str = Normal vals →
  (expandBraces str = Normal vals ↔ NoDup vals).
Proof.
  intros E. unfold expandBraces. rewrite E. split.
  - intros [= Heq]. rewrite <- Heq. apply NoDup_yield_loop.
  - intros Hnd. f_equal. apply yield_loop_NoDup; [done|].
    intros x _. apply not_elem_of_empty.
Qed.

Lemma expandBraces_raw_iff_NoDup_witness :
  expand (js "{a,b}c") = Normal [js "ac"; js "bc"] ∧
  (expandBraces (js "{a,b}c") = Normal [js "ac"; js "bc"]
   ↔ NoDup [js "ac"; js "bc"]).
Proof.
  assert (E : expand (js "{a,b}c") = Normal [js "ac"; js "bc"])
    by (vm_compute; reflexivity).
  split; [exact E|exact (expandBraces_raw_iff_NoDup _ _ E)].
Defined.

(** X5. An expansion that does not throw yields at least one string, and
    every string it yields begins with the text that stands before the
    first opening brace of the input. *)
Theorem expandBraces_nonempty_keeps_prefix
    (prefix rest : jsstring) (out : list jsstring) :
  open_brace ∉ prefix →
  expandBraces (prefix ++ rest) = Normal out →
  out ≠ [] ∧ ∀ x, x ∈ out → prefix `prefix_of` x.
Proof.
  intros Hno. unfold expandBraces.
  destruct (expand (prefix ++ rest)) as [vals| |] eqn:E; [|done..].
  intros [= <-]. split.
  - destruct vals as [|v vals]; [by apply expand_nonempty in E|done].
  - intros x [Hx _]%elem_of_yield_loop. by eapply expand_keeps_prefix.
Qed.

Lemma expandBraces_nonempty_keeps_prefix_witness :
  (open_brace ∉ js "a}") ∧
  expandBraces (js "a}" ++ js "{b,c}") = Normal [js "a}b"; js "a}c"] ∧
  [js "a}b"; js "a}c"] ≠ [] ∧
  ∀ x, x ∈ [js "a}b"; js "a}c"] → js "a}" `prefix_of` x.
Proof.
  assert (Hno : open_brace ∉ js "a}")
    by (apply (bool_decide_unpack _); vm_compute; exact I).
  assert (E : expandBraces (js "a}" ++ js "{b,c}") = Normal [js "a}b"; js "a}c"])
    by (vm_compute; reflexivity).
  split; [exact Hno|]. split; [exact E|].
  exact (expandBraces_nonempty_keeps_prefix _ _ _ Hno E).
Defined.

End BracesMoreFacts.

(** ** Further facts about generator objects *)

Module GeneratorMoreFacts.
Import Braces Generator GeneratorFacts.

Lemma heap_next_at (h : heap) id gen :
  h !! id = Some gen →
  heap_next id h = ((next gen).1, <[id := (next gen).2]> h).
Proof. intros Hid. unfold heap_next. rewrite Hid. by destruct (next gen). Qed.

Lemma drain_suspended_at fuel : ∀ (h : heap) id rest seen received,
  h !! id = Some (SuspendedYield rest seen) → length rest < fuel →
  drain fuel id h received
  = ((received ++ yield_loop rest seen, Normal ()), <[id := Completed]> h).
Proof.
  induction fuel as [|fuel IH]; intros h id rest seen received Hid Hfuel; [lia|].
  pose proof (lookup_lt_Some _ _ _ Hid) as Hlt.
  simpl. rewrite (heap_next_at _ _ _ Hid). simpl.
  pose proof (resume_spec rest seen) as Hres.
  destruct (resume rest seen) as [[[v|]| |] [ | rest' seen' |]]; try done; simpl.
  - destruct Hres as [-> Hlen].
    rewrite (IH _ id rest' seen') by (by rewrite ?list_lookup_insert_eq || lia).
    by rewrite list_insert_insert_eq, <- app_assoc.
  - by rewrite Hres, app_nil_r.
Qed.

Lemma drain_start_at (h : heap) id str extra :
  h !! id = Some (SuspendedStart str) →
  drain (budget str + extra) id h []
  = (observe (expandBraces str), <[id := Completed]> h).
Proof.
  intros Hid. pose proof (lookup_lt_Some _ _ _ Hid) as Hlt.
  unfold budget, expandBraces.
  destruct (expand str) as [vals|msg|] eqn:E; simpl;
    rewrite (heap_next_at _ _ _ Hid); simpl; rewrite E; [|done..].
  pose proof (resume_spec vals ∅) as Hres.
  destruct (resume vals ∅) as [[[v|]| |] [ | rest' seen' |]]; try done; simpl.
  - destruct Hres as [-> Hlen].
    rewrite (drain_suspended_at _ _ id rest' seen')
      by (by rewrite ?list_lookup_insert_eq || lia).
    by rewrite list_insert_insert_eq.
  - by rewrite Hres.
Qed.

Lemma drain_completed fuel (h : heap) id :
  h !! id = Some Completed → 0 < fuel →
  drain fuel id h [] = (([], Normal ()), h).
Proof.
  intros Hid Hfuel. destruct fuel as [|fuel]; [lia|].
  simpl. rewrite (heap_next_at _ _ _ Hid). simpl.
  by rewrite list_insert_id.
Qed.

(** X6. A generator whose body has not started, wherever it stands among
    the generator objects of the program and whatever their states, gives
    its consumer the whole sequence of its string; consuming it changes
    that one object (it is completed) and no other. *)
Theorem drain_fresh_generator
    (h : heap) (id : nat) (str : jsstring) (extra : nat) :
  h !! id = Some (SuspendedStart str) →
  (drain (budget str + extra) id h []).1 = observe (expandBraces str) ∧
  (drain (budget str + extra) id h []).2 !! id = Some Completed ∧
  ∀ id', id' ≠ id → (drain (budget str + extra) id h []).2 !! id' = h !! id'.
Proof.
  intros Hid. pose proof (lookup_lt_Some _ _ _ Hid) as Hlt.
  rewrite drain_start_at by done. simpl. split_and!.
  - done.
  - by rewrite list_lookup_insert_eq.
  - intros id' Hne. by rewrite list_lookup_insert_ne.
Qed.

Lemma drain_fresh_generator_witness :
  [SuspendedYield [js "q"] ∅; SuspendedStart (js "{a,b}")] !! 1
    = Some (SuspendedStart (js "{a,b}")) ∧
  (drain (budget (js "{a,b}") + 0) 1
     [SuspendedYield [js "q"] ∅; SuspendedStart (js "{a,b}")] []).1
    = ([js "a"; js "b"], Normal ()).
Proof.
  assert (Hid : [SuspendedYield [js "q"] ∅; SuspendedStart (js "{a,b}")] !! 1
                = Some (SuspendedStart (js "{a,b}"))) by reflexivity.
  split; [exact Hid|].
  exact (proj1 (drain_fresh_generator _ 1 (js "{a,b}") 0 Hid)).
Defined.

(** X7. A generator is consumed once: after a consumer ran it to its end,
    whether it ended normally or by the exception, consuming the same
    object again gives no value and no exception, and leaves the heap as
    it is. *)
Theorem drain_twice
    (h : heap) (id : nat) (str : jsstring) (extra fuel : nat) :
  h !! id = Some (SuspendedStart str) → 0 < fuel →
  drain fuel id (drain (budget str + extra) id h []).2 []
  = (([], Normal ()), (drain (budget str + extra) id h []).2).
Proof.
  intros Hid Hfuel. pose proof (lookup_lt_Some _ _ _ Hid) as Hlt.
  rewrite drain_start_at by done. simpl.
  apply drain_completed; [|done]. by rewrite list_lookup_insert_eq.
Qed.

Lemma drain_twice_witness :
  [SuspendedStart (js "{a,b")] !! 0 = Some (SuspendedStart (js "{a,b")) ∧
  0 < 3 ∧
  drain 3 0 (drain (budget (js "{a,b") + 0) 0 [SuspendedStart (js "{a,b")] []).2 []
  = (([], Normal ()), [Completed]).
Proof.
  assert (Hid : [SuspendedStart (js "{a,b")] !! 0 = Some (SuspendedStart (js "{a,b")))
    by reflexivity.
  assert (Hfuel : 0 < 3) by lia.
  split; [exact Hid|]. split; [exact Hfuel|].
  exact (drain_twice _ 0 (js "{a,b") 0 3 Hid Hfuel).
Defined.

End GeneratorMoreFacts.

(** ** Facts about the zig-zag matrix *)

Module ZigZagFacts.
Import ZigZag ZigZagSpec.

Lemma before_S n d : before n (S d) = before n d + diag_len n d.
Proof. reflexivity. Qed.

(** One move along the path: the next cell is inside the square and one
    place further, unless the current cell is the last corner. *)
Lemma advance_rank n i j i' j' :
  i < n → j < n → ¬ (i = n - 1 ∧ j = n - 1) →
  advance n i j = (i', j') →
  i' < n ∧ j' < n ∧ rank n i' j' = S (rank n i j).
Proof.
  intros Hi Hj Hlast. unfold advance, rank, offset.
  repeat case_bool_decide; intros [= <- <-].
  all: split; [lia|]; split; [lia|].
  all: match goal with
       | |- before _ ?x + _ = _ =>
           first [ replace x with (i + j) by lia
                 | replace x with (S (i + j)) by lia;
                   rewrite before_S; unfold diag_len ]
       end.
  all: repeat case_bool_decide; lia.
Qed.

Lemma before_low n d : d ≤ n → 2 * before n d = d * (d + 1).
Proof.
  induction d as [|d IH]; intros Hd; [done|].
  rewrite before_S. unfold diag_len. rewrite bool_decide_eq_true_2 by lia.
  specialize (IH ltac:(lia)). nia.
Qed.

Lemma before_high n e :
  e < n → 2 * before n (n + e) + e * (e + 1) = n * (n + 1) + 2 * e * n.
Proof.
  induction e as [|e IH]; intros He.
  - rewrite Nat.add_0_r, before_low by lia. lia.
  - replace (n + S e) with (S (n + e)) by lia.
    rewrite before_S. unfold diag_len. rewrite bool_decide_eq_false_2 by lia.
    specialize (IH ltac:(lia)). nia.
Qed.

(** The last corner is the last place of the path. *)
Lemma rank_last n : 1 ≤ n → S (rank n (n - 1) (n - 1)) = n * n.
Proof.
  intros Hn. unfold rank, offset.
  destruct (decide (n = 1)) as [->|Hne]; [by vm_compute|].
  replace (n - 1 + (n - 1)) with (n + (n - 2)) by lia.
  pose proof (before_high n (n - 2) ltac:(lia)) as H.
  repeat case_bool_decide; try lia; nia.
Qed.

Lemma rank_origin n : rank n 0 0 = 0.
Proof. unfold rank, offset. simpl. repeat case_bool_decide; simpl in *; lia. Qed.

Lemma entry_insert_eq (result : matrix) i j row v :
  result !! i = Some row → j < length row →
  entry (<[i := <[j := Num v]> row]> result) i j = Some (Num v).
Proof.
  intros Hi Hj. unfold entry.
  rewrite list_lookup_insert_eq by by eapply lookup_lt_Some.
  by rewrite list_lookup_insert_eq.
Qed.

Lemma entry_insert_ne (result : matrix) i j a b row v :
  result !! i = Some row → (a, b) ≠ (i, j) →
  entry (<[i := <[j := Num v]> row]> result) a b = entry result a b.
Proof.
  intros Hi Hne. unfold entry.
  destruct (decide (a = i)) as [->|Ha].
  - rewrite list_lookup_insert_eq by by eapply lookup_lt_Some.
    rewrite Hi. apply list_lookup_insert_ne. congruence.
  - by rewrite list_lookup_insert_ne.
Qed.

(** One iteration keeps the invariant. *)
Lemma fill_inv_step n num result i j :
  num < n * n → fill_inv n num result i j →
  ∃ result', store result i j num = Normal result' ∧
    fill_inv n (num + 1) result' (advance n i j).1 (advance n i j).2.
Proof.
  intros Hnum [Hrows Hcols Hdone Hhere].
  destruct (Hhere Hnum) as (Hi & Hj & Hrank).
  destruct (lookup_lt_is_Some_2 result i ltac:(lia)) as [row Hrow].
  destruct (Hcols _ _ Hrow) as [Hlen Hnums].
  unfold store, set_slot. rewrite Hrow, bool_decide_eq_true_2 by lia.
  eexists. split; [done|]. split.
  - by rewrite length_insert.
  - intros a row' Ha. destruct (decide (a = i)) as [->|Hne].
    + rewrite list_lookup_insert_eq in Ha by lia. simplify_eq.
      rewrite length_insert. split; [done|]. intros b c Hb.
      destruct (decide (b = j)) as [->|Hb'].
      * rewrite list_lookup_insert_eq in Hb by lia. simplify_eq. eauto.
      * rewrite list_lookup_insert_ne in Hb by done. eauto.
    + rewrite list_lookup_insert_ne in Ha by done. eauto.
  - intros k Hk. destruct (decide (k = num)) as [->|Hne].
    + exists i, j. split_and!; [done..|]. apply entry_insert_eq; [done|lia].
    + destruct (Hdone k ltac:(lia)) as (a & b & Ha & Hb & Hab & Hentry).
      exists a, b. split_and!; [done..|].
      rewrite entry_insert_ne; [done..|]. intros [= -> ->]. lia.
  - intros Hnext.
    destruct (advance n i j) as [i' j'] eqn:E. simpl.
    assert (1 ≤ n) as Hn by lia.
    pose proof (rank_last n Hn) as Hlast.
    destruct (advance_rank n i j i' j' Hi Hj) as (? & ? & ?); [|done|].
    + intros [-> ->]. lia.
    + split_and!; [done..|lia].
Qed.

(** The loop runs to its end and keeps the invariant. *)
Lemma fill_spec n todo : ∀ num result i j,
  num + todo = n * n → fill_inv n num result i j →
  ∃ result' i' j', fill n todo num result i j = Normal result' ∧
    fill_inv n (n * n) result' i' j'.
Proof.
  induction todo as [|todo IH]; intros num result i j Hsum Hinv.
  - rewrite Nat.add_0_r in Hsum. subst num. simpl. eauto.
  - destruct (fill_inv_step n num result i j) as (result' & Hstore & Hinv');
      [lia|done|].
    simpl. rewrite Hstore.
    destruct (advance n i j) as [i' j']. apply IH; [lia|done].
Qed.

Lemma fill_inv_start n :
  fill_inv n 0 (replicate n (replicate n (Num 0))) 0 0.
Proof.
  split.
  - by rewrite length_replicate.
  - intros a row [-> _]%lookup_replicate. rewrite length_replicate.
    split; [done|]. intros b c [-> _]%lookup_replicate. eauto.
  - lia.
  - intros Hn. rewrite rank_origin. lia.
Qed.






(** The documented examples. *)
Example getZigZagMatrix_3 :
  getZigZagMatrix 3 = Normal (of_rows [[0; 1; 5]; [2; 4; 6]; [3; 7; 8]]).
Proof. reflexivity. Qed.

Example getZigZagMatrix_4 :
  getZigZagMatrix 4
  = Normal (of_rows [[0; 1; 5; 6]; [2; 4; 7; 12]; [3; 8; 11; 13]; [9; 10; 14; 15]]).
Proof. reflexivity. Qed.

End ZigZagFacts.

(** ** Further facts about the zig-zag matrix *)

Module ZigZagMoreFacts.
Import ZigZag ZigZagSpec ZigZagFacts.

Lemma offset_lt n i j : i < n → j < n → offset n i j < diag_len n (i + j).
Proof.
  intros Hi Hj. unfold offset, diag_len. repeat case_bool_decide; lia.
Qed.

Lemma before_mono n d d' : d ≤ d' → before n d ≤ before n d'.
Proof.
  induction 1 as [|d' _ IH]; [done|]. rewrite before_S. lia.
Qed.

(** A cell on an earlier anti-diagonal comes earlier on the path. *)
Lemma rank_diag_lt n i j i' j' :
  i < n → j < n → i + j < i' + j' → rank n i j < rank n i' j'.
Proof.
  intros Hi Hj Hd. unfold rank.
  pose proof (offset_lt n i j Hi Hj).
  pose proof (before_mono n (S (i + j)) (i' + j') ltac:(lia)) as Hmono.
  rewrite before_S in Hmono. lia.
Qed.

Lemma rank_inj n i j i' j' :
  i < n → j < n → i' < n → j' < n →
  rank n i j = rank n i' j' → i = i' ∧ j = j'.
Proof.
  intros Hi Hj Hi' Hj' Heq.
  destruct (decide (i + j < i' + j')) as [Hlt|Hge].
  { pose proof (rank_diag_lt n i j i' j' Hi Hj Hlt). lia. }
  destruct (decide (i' + j' < i + j)) as [Hlt|Hge'].
  { pose proof (rank_diag_lt n i' j' i j Hi' Hj' Hlt). lia. }
  assert (i + j = i' + j') as Hd by lia.
  unfold rank, offset in Heq. rewrite <- Hd in Heq.
  repeat case_bool_decide; lia.
Qed.

Lemma before_total n : 1 ≤ n → before n (2 * n - 1) = n * n.
Proof.
  intros Hn. replace (2 * n - 1) with (n + (n - 1)) by lia.
  pose proof (before_high n (n - 1) ltac:(lia)). nia.
Qed.

Lemma rank_lt n i j : i < n → j < n → rank n i j < n * n.
Proof.
  intros Hi Hj. unfold rank.
  pose proof (offset_lt n i j Hi Hj).
  pose proof (before_mono n (S (i + j)) (2 * n - 1) ltac:(lia)) as Hmono.
  rewrite before_S, before_total in Hmono by lia. lia.
Qed.

(** The anti-diagonals [d] and [2n - 2 - d] mirror each other. *)
Lemma before_mirror n d :
  d ≤ 2 * n - 1 → before n d + before n (2 * n - 1 - d) = n * n.
Proof.
  intros Hd.
  destruct (decide (d ≤ n)) as [Hlow|Hhigh].
  - pose proof (before_low n d Hlow) as H1.
    destruct (decide (d = n)) as [->|Hne].
    + replace (2 * n - 1 - n) with (n - 1) by lia.
      pose proof (before_low n (n - 1) ltac:(lia)). nia.
    + replace (2 * n - 1 - d) with (n + (n - 1 - d)) by lia.
      pose proof (before_high n (n - 1 - d) ltac:(lia)) as H2.
      assert (∃ e, n = d + e + 1) as [e ->] by (exists (n - d - 1); lia).
      replace (d + e + 1 - 1 - d) with e in * by lia. nia.
  - assert (∃ e, d = n + e ∧ e < n) as (e & -> & He) by (exists (d - n); lia).
    pose proof (before_high n e He) as H1.
    replace (2 * n - 1 - (n + e)) with (n - 1 - e) by lia.
    pose proof (before_low n (n - 1 - e) ltac:(lia)) as H2.
    assert (∃ f, n = e + f + 1) as [f ->] by (exists (n - e - 1); lia).
    replace (e + f + 1 - 1 - e) with f in * by lia. nia.
Qed.

Lemma rank_mirror n i j :
  i < n → j < n → rank n i j + rank n (n - 1 - i) (n - 1 - j) + 1 = n * n.
Proof.
  intros Hi Hj.
  pose proof (before_mirror n (i + j) ltac:(lia)) as Hm.
  replace (2 * n - 1 - (i + j)) with (S (n - 1 - i + (n - 1 - j))) in Hm by lia.
  rewrite before_S in Hm. unfold rank, offset. unfold diag_len in Hm.
  repeat case_bool_decide; lia.
Qed.

(** The array returned holds at every cell the place of the cell on the
    path. *)
Lemma getZigZagMatrix_entries n :
  ∃ result, getZigZagMatrix n = Normal result ∧
    ∀ i j, i < n → j < n → entry result i j = Some (Num (rank n i j)).
Proof.
  destruct (fill_spec n (n * n) 0 _ 0 0 eq_refl (fill_inv_start n))
    as (result & i0 & j0 & Hfill & [_ _ Hdone _]).
  exists result. split; [done|]. intros i j Hi Hj.
  destruct (Hdone (rank n i j) (rank_lt n i j Hi Hj))
    as (a & b & Ha & Hb & Hrank & Hentry).
  by destruct (rank_inj n a b i j Ha Hb Hi Hj Hrank) as [-> ->].
Qed.

(** A move of the loop goes to a neighbouring cell. *)
Lemma advance_neighbour n i j :
  i < n → j < n → ¬ (i = n - 1 ∧ j = n - 1) →
  (advance n i j).1 ≤ i + 1 ∧ i ≤ (advance n i j).1 + 1 ∧
  (advance n i j).2 ≤ j + 1 ∧ j ≤ (advance n i j).2 + 1.
Proof.
  intros Hi Hj Hlast. unfold advance.
  repeat case_bool_decide; simpl; lia.
Qed.

Lemma getZigZagMatrix_entry n result i j :
  getZigZagMatrix n = Normal result → i < n → j < n →
  entry result i j = Some (Num (rank n i j)).
Proof.
  intros Hres Hi Hj.
  destruct (getZigZagMatrix_entries n) as (result' & Hres' & Hentries).
  rewrite Hres in Hres'. injection Hres' as <-. by apply Hentries.
Qed.

(** *** The stated properties *)


(** X9. In the array returned, a cell on an earlier anti-diagonal holds a
    smaller number than a cell on a later one. *)
Theorem getZigZagMatrix_diagonal_order
    (n : nat) (result : matrix) (i j i' j' v v' : nat) :
  getZigZagMatrix n = Normal result →
  i < n → j < n → i' < n → j' < n →
  entry result i j = Some (Num v) → entry result i' j' = Some (Num v') →
  i + j < i' + j' → v < v'.
Proof.
  intros Hres Hi Hj Hi' Hj' Hv Hv' Hd.
  rewrite (getZigZagMatrix_entry n result i j Hres Hi Hj) in Hv.
  rewrite (getZigZagMatrix_entry n result i' j' Hres Hi' Hj') in Hv'.
  injection Hv as <-. injection Hv' as <-. by apply rank_diag_lt.
Qed.

Lemma getZigZagMatrix_diagonal_order_witness :
  getZigZagMatrix 3 = Normal (of_rows [[0; 1; 5]; [2; 4; 6]; [3; 7; 8]]) ∧
  5 < 6.
Proof.
  assert (Hres : getZigZagMatrix 3
                 = Normal (of_rows [[0; 1; 5]; [2; 4; 6]; [3; 7; 8]]))
    by reflexivity.
  split; [exact Hres|].
  apply (getZigZagMatrix_diagonal_order 3 _ 0 2 1 2 5 6 Hres);
    first [lia | reflexivity].
Defined.

(** X10. In the array returned, the numbers [k] and [k + 1] stand in
    neighbouring cells (rows and columns differ by at most one), the
    second where one move of the loop leads from the first. *)
Theorem getZigZagMatrix_consecutive_neighbours
    (n : nat) (result : matrix) (i j i' j' k : nat) :
  getZigZagMatrix n = Normal result →
  i < n → j < n → i' < n → j' < n →
  entry result i j = Some (Num k) → entry result i' j' = Some (Num (S k)) →
  (i', j') = advance n i j ∧
  i' ≤ i + 1 ∧ i ≤ i' + 1 ∧ j' ≤ j + 1 ∧ j ≤ j' + 1.
Proof.
  intros Hres Hi Hj Hi' Hj' Hk Hk'.
  rewrite (getZigZagMatrix_entry n result i j Hres Hi Hj) in Hk.
  rewrite (getZigZagMatrix_entry n result i' j' Hres Hi' Hj') in Hk'.
  injection Hk as Hk. injection Hk' as Hk'.
  pose proof (rank_lt n i' j' Hi' Hj') as Hlt.
  pose proof (rank_last n ltac:(lia)) as Hlast.
  assert (¬ (i = n - 1 ∧ j = n - 1)) as Hnot by (intros [-> ->]; lia).
  destruct (advance n i j) as [a b] eqn:E.
  destruct (advance_rank n i j a b Hi Hj Hnot E) as (Ha & Hb & Hab).
  destruct (rank_inj n a b i' j' Ha Hb Hi' Hj' ltac:(lia)) as [-> ->].
  split; [done|].
  pose proof (advance_neighbour n i j Hi Hj Hnot) as Hn.
  rewrite E in Hn. done.
Qed.

Lemma getZigZagMatrix_consecutive_neighbours_witness :
  getZigZagMatrix 3 = Normal (of_rows [[0; 1; 5]; [2; 4; 6]; [3; 7; 8]]) ∧
  (1, 2) = advance 3 0 2 ∧ 1 ≤ 0 + 1 ∧ 0 ≤ 1 + 1 ∧ 2 ≤ 2 + 1 ∧ 2 ≤ 2 + 1.
Proof.
  assert (Hres : getZigZagMatrix 3
                 = Normal (of_rows [[0; 1; 5]; [2; 4; 6]; [3; 7; 8]]))
    by reflexivity.
  split; [exact Hres|].
  apply (getZigZagMatrix_consecutive_neighbours 3 _ 0 2 1 2 5 Hres);
    first [lia | reflexivity].
Defined.

(** X11. The array returned is symmetric about its centre: the numbers
    at [(i, j)] and at [(n - 1 - i, n - 1 - j)] add up to [n*n - 1]. *)
Theorem getZigZagMatrix_point_symmetry
    (n : nat) (result : matrix) (i j v v' : nat) :
  getZigZagMatrix n = Normal result → i < n → j < n →
  entry result i j = Some (Num v) →
  entry result (n - 1 - i) (n - 1 - j) = Some (Num v') →
  v + v' = n * n - 1.
Proof.
  intros Hres Hi Hj Hv Hv'.
  rewrite (getZigZagMatrix_entry n result i j Hres Hi Hj) in Hv.
  rewrite (getZigZagMatrix_entry n result _ _ Hres) in Hv' by lia.
  injection Hv as <-. injection Hv' as <-.
  pose proof (rank_mirror n i j Hi Hj). lia.
Qed.

Lemma getZigZagMatrix_point_symmetry_witness :
  getZigZagMatrix 4
    = Normal (of_rows [[0; 1; 5; 6]; [2; 4; 7; 12]; [3; 8; 11; 13]; [9; 10; 14; 15]]) ∧
  12 + 3 = 4 * 4 - 1.
Proof.
  assert (Hres : getZigZagMatrix 4
    = Normal (of_rows [[0; 1; 5; 6]; [2; 4; 7; 12]; [3; 8; 11; 13]; [9; 10; 14; 15]]))
    by reflexivity.
  split; [exact Hres|].
  apply (getZigZagMatrix_point_symmetry 4 _ 1 3 12 3 Hres);
    first [lia | reflexivity].
Defined.

End ZigZagMoreFacts.

(** ** Facts about selector chains *)

Module CssFacts.
Import Css CssSpec.

(** One call: the order check comes first, then the once-only check. *)
Lemma invoke_outcome p value sel :
  (invoke p value sel).2 =
    if bool_decide (part_order p < order sel) then Throw order_error
    else match unique_key p with
         | Some key =>
             if bool_decide (used sel !! key = Some true) then Throw unique_error
             else Normal {| result := result sel ++ part_text p value;
                            order := part_order p;
                            used := <[key := true]> (used sel) |}
         | None =>
             Normal {| result := result sel ++ part_text p value;
                       order := part_order p;
                       used := used sel |}
         end.
Proof.
  destruct p;
    unfold invoke, element, Css.id, class, attr, pseudoClass, pseudoElement,
      checkOrder, checkUnique, clone, throw, set_order, set_used, get_this,
      mbind, method_bind, mret, method_ret, part_order, unique_key;
    cbn -[js bool_decide];
    repeat (case_bool_decide; cbn -[js bool_decide]); done.
Qed.

Lemma chain_from_app calls1 : ∀ sel calls2,
  chain_from sel (calls1 ++ calls2) =
    match chain_from sel calls1 with
    | Normal sel' => chain_from sel' calls2
    | Throw msg => Throw msg
    | OutOfFuel => OutOfFuel
    end.
Proof.
  induction calls1 as [|[p v] calls1 IH]; intros sel calls2; simpl; [done|].
  destruct (invoke p v sel).2; auto.
Qed.

Lemma chain_from_snoc sel calls p v :
  chain_from sel (calls ++ [(p, v)]) =
    match chain_from sel calls with
    | Normal sel' => (invoke p v sel').2
    | Throw msg => Throw msg
    | OutOfFuel => OutOfFuel
    end.
Proof.
  rewrite chain_from_app. destruct (chain_from sel calls); [|done..].
  simpl. by destruct (invoke p v _).2.
Qed.

(** A chain throws one of the two errors, or returns. *)
Lemma chain_throw calls : ∀ sel msg,
  chain_from sel calls = Throw msg → msg = unique_error ∨ msg = order_error.
Proof.
  induction calls as [|[p v] calls IH]; intros sel msg; simpl; [done|].
  rewrite invoke_outcome.
  destruct (bool_decide _); [intros [= <-]; auto|].
  destruct (unique_key p); [destruct (bool_decide _)|];
    [intros [= <-]; auto|apply IH..].
Qed.

Lemma chain_fuel calls : ∀ sel, chain_from sel calls ≠ OutOfFuel.
Proof.
  induction calls as [|[p v] calls IH]; intros sel; simpl; [done|].
  rewrite invoke_outcome.
  destruct (bool_decide _); [done|].
  destruct (unique_key p); [destruct (bool_decide _)|]; [done|apply IH..].
Qed.

Lemma part_order_inj p q : part_order p = part_order q → p = q.
Proof. by destruct p, q. Qed.

Lemma unique_key_inj p q key :
  unique_key p = Some key → unique_key q = Some key → p = q.
Proof. by destruct p, q; intros [= <-]. Qed.

Lemma chain_inv_new : chain_inv [] new_CssSelector.
Proof.
  split; [done|by intros p ?%elem_of_nil|].
  intros p key Hkey. split; [|by intros ?%elem_of_nil].
  by destruct p; simplify_eq/=.
Qed.

Lemma parts_snoc calls p v : parts (calls ++ [(p, v)]) = parts calls ++ [p].
Proof. unfold parts. by rewrite fmap_app. Qed.

Lemma chain_inv_snoc calls sel p v sel' :
  chain_inv calls sel → (invoke p v sel).2 = Normal sel' →
  chain_inv (calls ++ [(p, v)]) sel'.
Proof.
  intros [Horder Hsorted Hused]. rewrite invoke_outcome.
  case_bool_decide as Hlt; [done|].
  assert (∀ q, q ∈ parts calls ++ [p] → part_order q ≤ part_order p) as Hle.
  { intros q [Hq| ->%list_elem_of_singleton]%elem_of_app; [|done].
    specialize (Hsorted q Hq). lia. }
  destruct (unique_key p) as [key|] eqn:Hkey.
  - case_bool_decide as Hseen; [done|]. intros [= <-].
    split; rewrite parts_snoc; simpl.
    + by rewrite last_snoc.
    + done.
    + intros q key' Hq. rewrite elem_of_app, list_elem_of_singleton.
      destruct (decide (key' = key)) as [->|Hne].
      * rewrite lookup_insert_eq. rewrite (unique_key_inj _ _ _ Hq Hkey). tauto.
      * rewrite lookup_insert_ne by done. rewrite (Hused q key' Hq).
        split; [tauto|]. intros [?| ->]; [done|]. congruence.
  - intros [= <-].
    split; rewrite parts_snoc; simpl.
    + by rewrite last_snoc.
    + done.
    + intros q key' Hq. rewrite elem_of_app, list_elem_of_singleton.
      rewrite (Hused q key' Hq).
      split; [tauto|]. intros [?| ->]; [done|]. congruence.
Qed.

Lemma builder_chain_inv calls : ∀ sel,
  builder_chain calls = Normal sel → chain_inv calls sel.
Proof.
  unfold builder_chain.
  induction calls as [|[p v] calls IH] using rev_ind; intros sel.
  - intros [= <-]. apply chain_inv_new.
  - rewrite chain_from_snoc.
    destruct (chain_from new_CssSelector calls) as [sel0| |]; [|done..].
    intros Hcall. eapply chain_inv_snoc; eauto.
Qed.

(** A once-only part called again: the call throws, and the order check
    decides which error. *)
Lemma repeated_call_outcome calls sel p v :
  once_only p → p ∈ parts calls →
  builder_chain calls = Normal sel →
  (invoke p v sel).2 =
    Throw (if bool_decide (last (parts calls) = Some p)
           then unique_error else order_error).
Proof.
  intros [key Hkey] Hp [Horder Hsorted Hused]%builder_chain_inv.
  rewrite invoke_outcome, Hkey.
  pose proof (Hsorted p Hp) as Hle.
  apply (Hused p key Hkey) in Hp as Hseen.
  destruct (last (parts calls)) as [q|] eqn:Hlast; simpl in Horder.
  - case_bool_decide as Hlt.
    + rewrite bool_decide_eq_false_2; [done|]. intros [= ->]. lia.
    + rewrite bool_decide_eq_true_2 by done.
      rewrite bool_decide_eq_true_2; [done|].
      f_equal. apply part_order_inj. lia.
  - apply last_None in Hlast. rewrite Hlast in Hp. by apply elem_of_nil in Hp.
Qed.

(** The parts of a chain that returned stand no later than [q] exactly
    when [order] lets a call of [q] pass. *)
Lemma chain_inv_order_le calls sel q :
  chain_inv calls sel →
  Forall (λ r, part_order r ≤ part_order q) (parts calls) ↔
    order sel ≤ part_order q.
Proof.
  intros [Horder Hsorted _]. rewrite Forall_forall. split.
  - intros Hall. rewrite Horder.
    destruct (last (parts calls)) as [r|] eqn:Hlast; simpl; [|lia].
    apply Hall. apply last_Some in Hlast as [l' ->].
    rewrite elem_of_app, list_elem_of_singleton. by right.
  - intros Hle r Hr. specialize (Hsorted r Hr). lia.
Qed.

(** A call of a part that has no once-only check, after a chain that
    returned: only the order check decides. *)
Lemma repeatable_call_outcome calls sel q value :
  unique_key q = None → builder_chain calls = Normal sel →
  builder_chain (calls ++ [(q, value)]) =
    if bool_decide (Forall (λ r, part_order r ≤ part_order q) (parts calls))
    then Normal {| result := result sel ++ part_text q value;
                   order := part_order q;
                   used := used sel |}
    else Throw order_error.
Proof.
  intros Hkey Hsel.
  pose proof (chain_inv_order_le calls sel q (builder_chain_inv _ _ Hsel)) as Hle.
  unfold builder_chain in *. rewrite chain_from_snoc, Hsel, invoke_outcome, Hkey.
  destruct (decide (Forall (λ r, part_order r ≤ part_order q) (parts calls)))
    as [Hall|Hall].
  - rewrite (bool_decide_eq_true_2 _ Hall).
    rewrite bool_decide_eq_false_2; [done|]. apply Hle in Hall. lia.
  - rewrite (bool_decide_eq_false_2 _ Hall).
    rewrite bool_decide_eq_true_2; [done|].
    destruct (decide (part_order q < order sel)); [done|].
    exfalso. apply Hall, Hle. lia.
Qed.

(** The same part, without a once-only check, called for each of
    [values] on a selector that has no later part yet. *)
Lemma chain_from_repeat p (values : list jsstring) : ∀ sel,
  unique_key p = None → order sel ≤ part_order p →
  ∃ sel', chain_from sel ((λ v, (p, v)) <$> values) = Normal sel' ∧
    order sel' ≤ part_order p ∧
    (values = [] → order sel' = order sel) ∧
    result sel' = result sel ++ concat (part_text p <$> values).
Proof.
  induction values as [|v values IH]; intros sel Hkey Hle; simpl.
  - exists sel. by rewrite app_nil_r.
  - rewrite invoke_outcome, Hkey, bool_decide_eq_false_2 by lia.
    edestruct IH as (sel' & -> & Hle' & _ & Hres); [done| |].
    2:{ exists sel'. split_and!; [done|done|done|].
        rewrite Hres. simpl. by rewrite <- (assoc_L (++)). }
    simpl. lia.
Qed.

(** Calls of [class] followed by calls of [attr], after a chain that
    returned and has no later part. *)
Lemma classes_attrs_outcome calls sel (classes attrs : list jsstring) :
  builder_chain calls = Normal sel →
  Forall (λ r, part_order r ≤ part_order Attr) (parts calls) →
  (classes ≠ [] → Forall (λ r, part_order r ≤ part_order Class) (parts calls)) →
  ∃ sel',
    builder_chain (calls ++ ((λ c, (Class, c)) <$> classes)
                         ++ ((λ a, (Attr, a)) <$> attrs)) = Normal sel' ∧
    stringify sel' = stringify sel ++ concat (part_text Class <$> classes)
                                   ++ concat (part_text Attr <$> attrs).
Proof.
  intros Hsel Hattr Hclass.
  pose proof (builder_chain_inv _ _ Hsel) as Hinv.
  apply (chain_inv_order_le _ _ _ Hinv) in Hattr.
  unfold builder_chain in *. rewrite chain_from_app, Hsel, chain_from_app.
  destruct classes as [|c classes].
  - simpl.
    destruct (chain_from_repeat Attr attrs sel) as (sel2 & -> & _ & _ & Hres);
      [done|done|].
    exists sel2. split; [done|]. unfold stringify. by rewrite Hres.
  - assert (order sel ≤ part_order Class) as Hle
      by (by apply (chain_inv_order_le _ _ _ Hinv), Hclass).
    destruct (chain_from_repeat Class (c :: classes) sel)
      as (sel1 & -> & Hle1 & _ & Hres1); [done|done|].
    destruct (chain_from_repeat Attr attrs sel1) as (sel2 & -> & _ & _ & Hres2);
      [done|simpl in *; lia|].
    exists sel2. split; [done|]. unfold stringify.
    by rewrite Hres2, Hres1, <- (assoc_L (++)).
Qed.

(** C10, as stated, fails: a second [element] after an [id] throws the
    order error, which is another message than the once-only error. *)
Lemma second_element_after_id_order_error :
  builder_chain [(Element, js "div"); (Id, js "main"); (Element, js "span")]
    = Throw order_error ∧
  order_error ≠ unique_error.
Proof. split; [by vm_compute|done]. Qed.

(** C10, amended. In a chain built from [cssSelectorBuilder], calling
    [element], [id] or [pseudoElement] a second time always ends in an
    [Error], one of the two the class throws.  When the chain reaches the
    repeated call, that call throws: the once-only error when it directly
    follows the first call of the same method, the order error when
    another part was added in between.

    [class] and [attr] may be called any number of times: a call of
    either never throws the once-only error, whatever the state of the
    selector.  After any chain that returned, a call of [class] or of
    [attr] returns, with its text appended, when no part of the chain
    stands later in the selector than the part called, however often
    that part was called before; otherwise it throws the order error.
    So after any chain that returned and holds no pseudo-class and no
    pseudo-element, any number of [class] calls followed by any number of
    [attr] calls returns the selector with all their texts appended
    (with at least one [class] call the chain must hold no [attr]
    either). *)
Theorem repeated_once_only_part_throws :
  (∀ (calls : list (part * jsstring)) (p : part) (v : jsstring),
     once_only p → p ∈ parts calls →
     (∃ msg, builder_chain (calls ++ [(p, v)]) = Throw msg ∧
             (msg = unique_error ∨ msg = order_error)) ∧
     (∀ sel, builder_chain calls = Normal sel →
        builder_chain (calls ++ [(p, v)]) =
          Throw (if bool_decide (last (parts calls) = Some p)
                 then unique_error else order_error))) ∧
  (∀ q sel value msg, q = Class ∨ q = Attr →
     (invoke q value sel).2 = Throw msg → msg = order_error) ∧
  (∀ (calls : list (part * jsstring)) sel q value, q = Class ∨ q = Attr →
     builder_chain calls = Normal sel →
     builder_chain (calls ++ [(q, value)]) =
       if bool_decide (Forall (λ r, part_order r ≤ part_order q) (parts calls))
       then Normal {| result := result sel ++ part_text q value;
                      order := part_order q;
                      used := used sel |}
       else Throw order_error) ∧
  (∀ (calls : list (part * jsstring)) sel (classes attrs : list jsstring),
     builder_chain calls = Normal sel →
     Forall (λ r, part_order r ≤ part_order Attr) (parts calls) →
     (classes ≠ [] →
      Forall (λ r, part_order r ≤ part_order Class) (parts calls)) →
     ∃ sel',
       builder_chain (calls ++ ((λ c, (Class, c)) <$> classes)
                            ++ ((λ a, (Attr, a)) <$> attrs)) = Normal sel' ∧
       stringify sel' = stringify sel ++ concat (part_text Class <$> classes)
                                      ++ concat (part_text Attr <$> attrs)).
Proof.
  split_and!.
  - intros calls p v Honce Hp.
    assert (∀ sel, builder_chain calls = Normal sel →
       builder_chain (calls ++ [(p, v)]) =
         Throw (if bool_decide (last (parts calls) = Some p)
                then unique_error else order_error)) as Hreached.
    { intros sel Hsel. unfold builder_chain in *.
      rewrite chain_from_snoc, Hsel. by apply repeated_call_outcome. }
    split; [|done].
    destruct (builder_chain calls) as [sel|msg|] eqn:E.
    + rewrite (Hreached sel eq_refl). eexists. split; [done|].
      case_bool_decide; auto.
    + unfold builder_chain in *. rewrite chain_from_snoc, E.
      exists msg. split; [done|]. by eapply chain_throw.
    + by apply chain_fuel in E.
  - intros q sel value msg Hq. rewrite invoke_outcome.
    destruct Hq as [-> | ->]; cbn [unique_key]; case_bool_decide;
      intros Hthrow; first [discriminate Hthrow | by injection Hthrow as <-].
  - intros calls sel q value Hq Hsel.
    apply repeatable_call_outcome; [by destruct Hq as [-> | ->]|done].
  - intros calls sel classes attrs. apply classes_attrs_outcome.
Qed.

Lemma repeated_once_only_part_throws_witness :
  builder_chain [(Element, js "div"); (Id, js "main"); (Class, js "box");
                 (Id, js "other")] = Throw order_error ∧
  builder_chain [(Element, js "div"); (Class, js "a"); (Attr, js "b");
                 (Class, js "c")] = Throw order_error ∧
  ∃ sel, builder_chain [(Id, js "main"); (Class, js "a"); (Class, js "b")]
           = Normal sel ∧
         stringify sel = js "#main.a.b".
Proof.
  destruct repeated_once_only_part_throws as (Honce & _ & Hcall & Hrepeat).
  split_and!.
  - assert (Hp : once_only Id) by (by eexists).
    assert (Hin : Id ∈ parts [(Element, js "div"); (Id, js "main"); (Class, js "box")])
      by (apply (bool_decide_unpack _); vm_compute; exact I).
    destruct (Honce _ Id (js "other") Hp Hin) as (_ & Hreached).
    refine (eq_trans (Hreached _ _) _).
    + vm_compute. reflexivity.
    + reflexivity.
  - refine (eq_trans
      (Hcall [(Element, js "div"); (Class, js "a"); (Attr, js "b")] _
         Class (js "c") (or_introl eq_refl) _) _).
    + vm_compute. reflexivity.
    + reflexivity.
  - assert (Hall : ∀ n, Forall (λ r, part_order r ≤ n + 2) (parts [(Id, js "main")])).
    { intros n. apply Forall_cons; split; [simpl; lia|apply Forall_nil_2]. }
    destruct (Hrepeat [(Id, js "main")] _ [js "a"; js "b"] []
                (eq_refl : builder_chain [(Id, js "main")] = Normal _)
                (Hall 2) (λ _, Hall 1))
      as (sel & Hsel & Hstr).
    exists sel. split; [exact Hsel|]. rewrite Hstr. reflexivity.
Defined.

End CssFacts.

(** ** Further facts about selector chains *)

Module CssMoreFacts.
Import Css CssSpec CssMore CssFacts.

(** The receiver after a call, and what the call returns. *)
Lemma invoke_state p value this :
  (invoke p value this).1 =
    if bool_decide (part_order p < order this) then this
    else match unique_key p with
         | Some key =>
             if bool_decide (used this !! key = Some true)
             then {| result := result this; order := part_order p;
                     used := used this |}
             else {| result := result this; order := part_order p;
                     used := <[key := true]> (used this) |}
         | None => {| result := result this; order := part_order p;
                      used := used this |}
         end.
Proof.
  destruct p;
    unfold invoke, element, Css.id, class, attr, pseudoClass, pseudoElement,
      checkOrder, checkUnique, clone, throw, set_order, set_used, get_this,
      mbind, method_bind, mret, method_ret, part_order, unique_key;
    cbn -[js bool_decide];
    repeat (case_bool_decide; cbn -[js bool_decide]); try done;
    by destruct this.
Qed.

Lemma chain_from_result calls : ∀ sel0 sel,
  chain_from sel0 calls = Normal sel →
  result sel = result sel0 ++ chain_text calls.
Proof.
  unfold chain_text.
  induction calls as [|[p v] calls IH]; intros sel0 sel; simpl.
  - intros [= <-]. by rewrite app_nil_r.
  - rewrite invoke_outcome.
    destruct (bool_decide _); [done|].
    destruct (unique_key p); [destruct (bool_decide _); [done|]|];
      intros Hres%IH; rewrite Hres; simpl; by rewrite <- app_assoc.
Qed.

Lemma follows_new : follows None new_CssSelector.
Proof.
  split; [done|]. intros q key Hkey _. split; [|done].
  by destruct q; simplify_eq/=.
Qed.

(** One call on an object in the state [prev] leaves: it returns exactly
    when the part may follow [prev], and the copy is in the state the
    part leaves. *)
Lemma invoke_follows prev sel q v :
  follows prev sel →
  match (invoke q v sel).2 with
  | Normal copy =>
      match prev with None => True | Some p => may_follow p q end ∧
      follows (Some q) copy
  | Throw _ => ∃ p, prev = Some p ∧ ¬ may_follow p q
  | OutOfFuel => False
  end.
Proof.
  intros [Horder Hused]. rewrite invoke_outcome.
  case_bool_decide as Hlt.
  { destruct prev as [p|]; simpl in Horder; [|lia].
    exists p. split; [done|]. unfold may_follow. intros [?|[-> _]]; lia. }
  assert (∀ q' key', unique_key q' = Some key' → q' ≠ q →
            part_order q ≤ part_order q' → used sel !! key' ≠ Some true)
    as Hother.
  { intros q' key' Hkey' Hne Hle Hseen.
    apply (Hused q' key' Hkey') in Hseen; [|lia]. subst prev.
    simpl in Horder. apply Hne, part_order_inj. lia. }
  assert (match prev with
          | Some p => part_order p < part_order q ∨ p = q
          | None => True
          end) as Hprev.
  { destruct prev as [p|]; [|done]. simpl in Horder.
    destruct (decide (p = q)); [by right|left].
    assert (part_order p ≠ part_order q) by (by intros ?%part_order_inj). lia. }
  destruct (unique_key q) as [key|] eqn:Hkey.
  - case_bool_decide as Hseen.
    + apply (Hused q key Hkey) in Hseen; [|lia]. subst prev.
      exists q. split; [done|]. unfold may_follow.
      intros [?|[_ ?]]; [lia|congruence].
    + split.
      * destruct prev as [p|]; [|done]. destruct Hprev as [?| ->]; [by left|].
        destruct Hseen. by apply (Hused q key Hkey); [lia|].
      * split; [done|]. simpl. intros q' key' Hkey' Hle.
        destruct (decide (key' = key)) as [->|Hne].
        -- rewrite lookup_insert_eq, (unique_key_inj _ _ _ Hkey' Hkey). done.
        -- rewrite lookup_insert_ne by done.
           assert (q' ≠ q) by congruence.
           split; [by intros ?%(Hother q' key')|congruence].
  - split.
    + destruct prev as [p|]; [|done]. destruct Hprev as [?| ->]; [by left|].
      by right.
    + split; [done|]. simpl. intros q' key' Hkey' Hle.
      assert (q' ≠ q) by congruence.
      split; [by intros ?%(Hother q' key')|congruence].
Qed.

Lemma may_follow_dec p q : Decision (may_follow p q).
Proof. unfold may_follow. apply _. Qed.

Lemma chain_from_valid calls : ∀ prev sel,
  follows prev sel →
  (∃ sel', chain_from sel calls = Normal sel') ↔ valid_from prev (parts calls).
Proof.
  induction calls as [|[q v] calls IH]; intros prev sel Hsel; simpl.
  - split; [done|eauto].
  - pose proof (invoke_follows prev sel q v Hsel) as Hcall.
    destruct (invoke q v sel).2 as [copy|msg|]; [| |done].
    + destruct Hcall as [Hmay Hcopy]. rewrite (IH (Some q) copy Hcopy). tauto.
    + destruct Hcall as (p & -> & Hnot). split; [by intros [? ?]|tauto].
Qed.

(** The outcome of a call depends on [order] and [used] only, as far as
    exceptions go. *)
Lemma invoke_throw_ext q w sel1 sel2 msg :
  order sel1 = order sel2 → used sel1 = used sel2 →
  (invoke q w sel1).2 = Throw msg ↔ (invoke q w sel2).2 = Throw msg.
Proof.
  intros Ho Hu. rewrite !invoke_outcome, Ho, Hu.
  destruct (bool_decide _); [done|].
  destruct (unique_key q); [destruct (bool_decide _)|]; done.
Qed.

(** *** The stated properties *)

(** X12. The string of a selector built by a chain that did not throw is
    the texts of its calls in call order: the value for [element], and
    the value behind [#], behind [.], between brackets, behind [:] and
    behind [::] for the other parts. *)
Theorem stringify_builder_chain
    (calls : list (part * jsstring)) (sel : CssSelector) :
  builder_chain calls = Normal sel → stringify sel = chain_text calls.
Proof.
  intros Hsel. apply chain_from_result in Hsel. unfold stringify. by rewrite Hsel.
Qed.

Lemma stringify_builder_chain_witness :
  builder_chain [(Element, js "a"); (Attr, js "href$=.png"); (PseudoClass, js "focus")]
    = Normal {| result := js "a[href$=.png]:focus"; order := 5;
                used := <["element" := true]> (used new_CssSelector) |} ∧
  js "a[href$=.png]:focus"
    = chain_text [(Element, js "a"); (Attr, js "href$=.png"); (PseudoClass, js "focus")].
Proof.
  assert (H : builder_chain
                [(Element, js "a"); (Attr, js "href$=.png"); (PseudoClass, js "focus")]
    = Normal {| result := js "a[href$=.png]:focus"; order := 5;
                used := <["element" := true]> (used new_CssSelector) |})
    by reflexivity.
  split; [exact H|exact (stringify_builder_chain _ _ H)].
Defined.

(** X13. A chain built from [cssSelectorBuilder] returns a selector
    exactly when every call after the first names a part that stands
    later in [element#id.class[attr]:pseudoClass::pseudoElement] than
    the part called just before, or repeats a [class], [attr] or
    [pseudoClass] call; any other chain throws. *)
Theorem builder_chain_returns_iff (calls : list (part * jsstring)) :
  (∃ sel, builder_chain calls = Normal sel) ↔ valid_from None (parts calls).
Proof. apply chain_from_valid, follows_new. Qed.

(** X14. A call that returns marks its receiver as well as the copy it
    returns: the receiver keeps its string but takes the [order] and
    the [used] marks of the copy.  A later call on the receiver then
    throws whenever the same call on the copy throws, with the same
    error; calling the same once-only part a second time on the
    receiver throws the once-only error. *)
Theorem receiver_marked_by_call
    (p : part) (v : jsstring) (this this' copy : CssSelector) :
  invoke p v this = (this', Normal copy) →
  result this' = result this ∧ order this' = order copy ∧ used this' = used copy ∧
  (∀ q w msg, (invoke q w this').2 = Throw msg ↔ (invoke q w copy).2 = Throw msg) ∧
  (once_only p → ∀ w, (invoke p w this').2 = Throw unique_error).
Proof.
  intros Hcall.
  pose proof (invoke_state p v this) as Hstate.
  pose proof (invoke_outcome p v this) as Hout.
  rewrite Hcall in Hstate, Hout. simpl in Hstate, Hout.
  assert (result this' = result this ∧ order this' = order copy ∧
          used this' = used copy ∧ order copy = part_order p ∧
          ∀ key, unique_key p = Some key → used copy !! key = Some true)
    as (Hr & Ho & Hu & Hp & Hkey).
  { destruct (bool_decide (part_order p < order this)); [done|].
    destruct (unique_key p) as [key|];
      [destruct (bool_decide (used this !! key = Some true)); [done|]|];
      injection Hout as Hcopy; subst copy this'; simpl; split_and!; try done.
    intros key' [= <-]. by rewrite lookup_insert_eq. }
  split_and!; [done..| |].
  - intros q w msg. by apply invoke_throw_ext.
  - intros [key Hk] w. rewrite invoke_outcome, Hk, Ho, Hu, Hp.
    rewrite bool_decide_eq_false_2 by lia.
    by rewrite bool_decide_eq_true_2 by auto.
Qed.

Lemma receiver_marked_by_call_witness :
  invoke Id (js "main") new_CssSelector
    = ({| result := []; order := 2;
          used := <["id" := true]> (used new_CssSelector) |},
       Normal {| result := js "#main"; order := 2;
                 used := <["id" := true]> (used new_CssSelector) |}) ∧
  (invoke Id (js "other")
     {| result := []; order := 2;
        used := <["id" := true]> (used new_CssSelector) |}).2
    = Throw unique_error.
Proof.
  assert (H : invoke Id (js "main") new_CssSelector
    = ({| result := []; order := 2;
          used := <["id" := true]> (used new_CssSelector) |},
       Normal {| result := js "#main"; order := 2;
                 used := <["id" := true]> (used new_CssSelector) |}))
    by reflexivity.
  split; [exact H|].
  destruct (receiver_marked_by_call Id (js "main") _ _ _ H) as (_ & _ & _ & _ & Honce).
  apply Honce. by eexists.
Defined.

(** X15. [combine] puts the combinator between the strings of its
    arguments, with one space on each side, so nesting to the left or
    to the right gives the same string. *)
Theorem combine_assoc (a b c : selector) (combinator1 combinator2 : jsstring) :
  stringify_selector (combine (combine a combinator1 b) combinator2 c)
  = stringify_selector (combine a combinator1 (combine b combinator2 c)) ∧
  stringify_selector (combine a combinator1 b)
  = stringify_selector a ++ js " " ++ combinator1 ++ js " " ++ stringify_selector b.
Proof.
  split; [|done]. cbn [combine stringify_selector].
  by rewrite <- !app_assoc.
Qed.

(** The documented examples. *)
Example builder_id_class_class :
  stringify <$> (match builder_chain [(Id, js "main"); (Class, js "container");
                                      (Class, js "editable")] with
                 | Normal sel => Some sel | _ => None end)
  = Some (js "#main.container.editable").
Proof. reflexivity. Qed.

End CssMoreFacts.

(** ** Facts about extractRanges *)

Module RangesFacts.
Import Ranges RangesSpec.

(** *** Numbers *)

(** Up to [2^53] in absolute value an integer is a double. *)
Lemma round_double_exact z : (- 2 ^ 53 ≤ z ≤ 2 ^ 53)%Z → round_double z = z.
Proof.
  intros Hz. unfold round_double. case_bool_decide as He; [done|].
  assert (53 ≤ Z.log2 (Z.abs z))%Z as Hlog by lia.
  assert (0 < Z.abs z)%Z as Hpos.
  { destruct (decide (z = 0%Z)) as [->|]; [|lia]. by vm_compute in Hlog. }
  assert (Z.abs z = 2 ^ 53)%Z as Habs.
  { apply Z.le_antisymm; [lia|].
    destruct (Z.le_gt_cases (2 ^ 53) (Z.abs z)) as [|Hlt]; [done|].
    apply Z.log2_lt_pow2 in Hlt; lia. }
  clear He Hlog.
  assert (z = 2 ^ 53 ∨ z = - 2 ^ 53)%Z as [-> | ->] by lia; by vm_compute.
Qed.

(** From [2^53] on the nearest double is no smaller than [2^53]. *)
Lemma round_double_large z : (2 ^ 53 ≤ z)%Z → (2 ^ 53 ≤ round_double z)%Z.
Proof.
  intros Hz. unfold round_double.
  assert (53 ≤ Z.log2 (Z.abs z))%Z as Hlog.
  { rewrite Z.abs_eq by lia. change 53%Z with (Z.log2 (2 ^ 53)).
    by apply Z.log2_le_mono. }
  rewrite Z.abs_eq in * by lia.
  set (e := (Z.log2 z - 52)%Z) in *.
  case_bool_decide as He; [lia|].
  assert (0 < 2 ^ e)%Z as Hpos by (apply Z.pow_pos_nonneg; lia).
  assert (2 ≤ 2 ^ e)%Z as Htwo.
  { change 2%Z with (2 ^ 1)%Z at 1. apply Z.pow_le_mono_r; lia. }
  assert (2 ^ 52 ≤ z / 2 ^ e)%Z as Hq.
  { apply Z.div_le_lower_bound; [done|].
    rewrite Z.mul_comm, <- Z.pow_add_r by lia.
    replace (52 + e)%Z with (Z.log2 z) by (unfold e; lia).
    apply Z.log2_spec. lia. }
  set (q := (z / 2 ^ e)%Z) in *.
  assert (∀ q', q ≤ q' → 2 ^ 53 ≤ q' * 2 ^ e)%Z as Hmul.
  { intros q' Hq'. change (2 ^ 53)%Z with (2 ^ 52 * 2)%Z.
    apply Z.mul_le_mono_nonneg; lia. }
  repeat case_bool_decide; try destruct (Z.even q); apply Hmul; lia.
Qed.

Lemma shortest_from_unfold m x :
  shortest_from m x =
  let p := (10 ^ Z.of_nat m)%Z in
  let lo := (x / p * p)%Z in
  let hi := (lo + p)%Z in
  let below := bool_decide (0 < lo)%Z && bool_decide (round_double lo = x) in
  let above := bool_decide (round_double hi = x) in
  if below && above then
    (if bool_decide (x - lo < hi - x)%Z then lo
     else if bool_decide (hi - x < x - lo)%Z then hi
     else if Z.even (x / p) then lo else hi)
  else if below then lo
  else if above then hi
  else match m with
       | 0 => x
       | S m' => shortest_from m' x
       end.
Proof. by destruct m. Qed.

(** Below [2^53] no other integer reads back as [x]. *)
Lemma shortest_from_safe m : ∀ x, (0 ≤ x < 2 ^ 53)%Z → shortest_from m x = x.
Proof.
  induction m as [|m IH]; intros x Hx; rewrite shortest_from_unfold;
    cbv zeta.
  all: set (p := (10 ^ Z.of_nat _)%Z).
  all: assert (0 < p)%Z as Hp by (apply Z.pow_pos_nonneg; lia).
  all: pose proof (Z.mul_div_le x p Hp) as Hlo.
  all: pose proof (Z.mod_pos_bound x p Hp) as Hmod.
  all: pose proof (Z.div_mod x p ltac:(lia)) as Hdiv.
  all: rewrite (Z.mul_comm (x / p) p).
  all: set (lo := (p * (x / p))%Z) in *.
  all: assert (bool_decide (0 < lo)%Z && bool_decide (round_double lo = x) = true
               → lo = x) as Hbelow
    by (intros [_ Hr%bool_decide_eq_true]%andb_true_iff;
        by rewrite round_double_exact in Hr by lia).
  all: assert (bool_decide (round_double (lo + p) = x) = false) as ->.
  1,3: apply bool_decide_eq_false_2; intros Hr;
       destruct (Z.le_gt_cases (2 ^ 53) (lo + p)) as [Hbig|Hsmall];
       [apply round_double_large in Hbig; lia
       |rewrite round_double_exact in Hr by lia; lia].
  all: rewrite andb_false_r.
  all: destruct (bool_decide (0 < lo)%Z && bool_decide (round_double lo = x))
         eqn:Hb; [by apply Hbelow|].
  - done.
  - by apply IH.
Qed.

(** A safe integer prints as its decimal notation. *)
Lemma number_to_string_safe x : safe_integer x → number_to_string x = decimal x.
Proof.
  intros Hx. unfold safe_integer in Hx.
  assert (2 ^ 53 < 10 ^ 21)%Z as Hbound by done.
  assert (∀ y, 0 ≤ y < 2 ^ 53 → unsigned_to_string y = decimal y)%Z as Hpos.
  { intros y Hy. unfold unsigned_to_string, shortest.
    rewrite shortest_from_safe by done.
    by rewrite bool_decide_eq_true_2 by lia. }
  unfold number_to_string. case_bool_decide as Hneg.
  - rewrite Hpos by lia. by destruct x.
  - apply Hpos. lia.
Qed.

(** *** The loops *)

(** The inner loop stops, at the end of the run of successive integers
    that begins at [j]. *)
Lemma run_end_spec fuel : ∀ nums j,
  length nums - j ≤ fuel →
  ∃ j', run_end fuel nums j = Some j' ∧ j ≤ j' ∧
    (j < length nums → j' < length nums) ∧
    (∀ k, j ≤ k < j' → continues nums k = true) ∧
    continues nums j' = false.
Proof.
  induction fuel as [|fuel IH]; intros nums j Hfuel; simpl.
  - rewrite bool_decide_eq_false_2 by lia. simpl.
    exists j. split_and!; [done..|lia|].
    unfold continues. by rewrite lookup_ge_None_2 by lia.
  - case_bool_decide as Hj; simpl.
    + destruct (continues nums j) eqn:Hc.
      * destruct (IH nums (j + 1) ltac:(lia)) as (j' & -> & Hle & Hlt & Hrun & Hstop).
        exists j'. split_and!; [done|lia|lia| |done].
        intros k Hk. destruct (decide (k = j)) as [->|]; [done|].
        apply Hrun. lia.
      * exists j. split_and!; [done..|lia|done].
    + exists j. split_and!; [done..|lia|].
      unfold continues. by rewrite lookup_ge_None_2 by lia.
Qed.

(** Next to a safe integer, the comparison is that of the integers. *)
Lemma continues_safe nums k a b :
  safe_integer a → nums !! k = Some a → nums !! (k + 1) = Some b →
  continues nums k = bool_decide (b = a + 1)%Z.
Proof.
  intros Ha Hk Hk1. unfold continues, safe_integer in *. rewrite Hk, Hk1.
  by rewrite round_double_exact by lia.
Qed.

Lemma continues_Some nums k x :
  safe_integer x →
  continues nums k = true → nums !! k = Some x → nums !! (k + 1) = Some (x + 1)%Z.
Proof.
  intros Hx Hc Hk.
  destruct (nums !! (k + 1)) as [b|] eqn:Hk1.
  - rewrite (continues_safe nums k x b) in Hc by done.
    by apply bool_decide_eq_true in Hc as ->.
  - unfold continues in Hc. by rewrite Hk1 in Hc.
Qed.

Lemma run_lookup nums j j' x :
  Forall safe_integer nums →
  (∀ k, j ≤ k < j' → continues nums k = true) → nums !! j = Some x →
  ∀ k, j + k ≤ j' → nums !! (j + k) = Some (x + Z.of_nat k)%Z.
Proof.
  intros Hsafe Hrun Hj. induction k as [|k IH]; intros Hk.
  - by rewrite Nat.add_0_r, Z.add_0_r.
  - replace (j + S k) with (j + k + 1) by lia.
    rewrite (continues_Some nums (j + k) (x + Z.of_nat k)%Z).
    + f_equal. lia.
    + eapply Forall_lookup_1; [done|]. apply IH. lia.
    + apply Hrun. lia.
    + apply IH. lia.
Qed.

Lemma run_seqZ nums j j' x :
  Forall safe_integer nums →
  j ≤ j' → j' < length nums →
  (∀ k, j ≤ k < j' → continues nums k = true) → nums !! j = Some x →
  drop j nums = seqZ x (Z.of_nat (j' - j) + 1) ++ drop (j' + 1) nums.
Proof.
  intros Hsafe Hle Hlt Hrun Hj.
  rewrite <- (take_drop (j' - j + 1) (drop j nums)) at 1.
  rewrite drop_drop. replace (j + (j' - j + 1)) with (j' + 1) by lia.
  f_equal. apply list_eq. intros k.
  destruct (decide (k < j' - j + 1)) as [Hk|Hk].
  - rewrite lookup_take_lt, lookup_drop by done.
    rewrite (run_lookup nums j j' x) by (done || lia).
    by rewrite lookup_seqZ_lt by lia.
  - rewrite lookup_take_ge by lia. by rewrite lookup_seqZ_ge by lia.
Qed.

Lemma maximal_nil : maximal [].
Proof. intros before t after H. by destruct before. Qed.

Lemma maximal_cons t items :
  match t with
  | Single x => ∀ rest, values items ≠ (x + 1)%Z :: (x + 2)%Z :: rest
  | Range a b => ∀ rest, values items ≠ (b + 1)%Z :: rest
  end →
  maximal items → maximal (t :: items).
Proof.
  intros Hhead Hmax before t' after Heq.
  destruct before as [|t0 before]; simpl in Heq.
  - by injection Heq as <- <-.
  - injection Heq as <- Heq. by eapply Hmax.
Qed.

Lemma element_text_Some nums i x :
  Forall safe_integer nums →
  nums !! i = Some x → element_text nums i = decimal x.
Proof.
  intros Hsafe Hx. unfold element_text. rewrite Hx.
  apply number_to_string_safe. by eapply Forall_lookup_1.
Qed.

Lemma ranges_loop_unfold fuel nums i result :
  ranges_loop fuel nums i result =
  if bool_decide (i < length nums) then
    match fuel with
    | 0 => OutOfFuel
    | S fuel' =>
        match run_end (length nums) nums i with
        | None => OutOfFuel
        | Some j =>
            if bool_decide (2 ≤ j - i) then
              ranges_loop fuel' nums (j + 1)
                (result ++ element_text nums i ++ js "-"
                        ++ element_text nums j ++ js ",")
            else
              ranges_loop fuel' nums (i + 1)
                (result ++ element_text nums i ++ js ",")
        end
    end
  else Normal result.
Proof. by destruct fuel. Qed.

(** The outer loop writes the items of the rest of the list. *)
Lemma ranges_loop_spec fuel : ∀ nums i result,
  Forall safe_integer nums →
  length nums - i ≤ fuel →
  ∃ items,
    ranges_loop fuel nums i result
      = Normal (result ++ concat (map (λ t, item_text t ++ js ",") items)) ∧
    values items = drop i nums ∧ Forall long_range items ∧ maximal items.
Proof.
  induction fuel as [|fuel IH]; intros nums i result Hsafe Hfuel;
    rewrite ranges_loop_unfold.
  { rewrite bool_decide_eq_false_2 by lia. exists [].
    split_and!; [by rewrite app_nil_r|by rewrite drop_ge by lia|done|
                 apply maximal_nil]. }
  case_bool_decide as Hi.
  2:{ exists []. split_and!; [by rewrite app_nil_r|by rewrite drop_ge by lia|done|
                            apply maximal_nil]. }
  destruct (run_end_spec (length nums) nums i ltac:(lia))
    as (j & -> & Hle & Hlt & Hrun & Hstop).
  specialize (Hlt Hi).
  destruct (lookup_lt_is_Some_2 nums i Hi) as [x Hx].
  pose proof (run_lookup nums i j x Hsafe Hrun Hx) as Hvals.
  pose proof (run_seqZ nums i j x Hsafe Hle Hlt Hrun Hx) as Hdrop.
  case_bool_decide as Hlong.
  - destruct (IH nums (j + 1) (result ++ element_text nums i ++ js "-"
                ++ element_text nums j ++ js ",") Hsafe ltac:(lia))
      as (items & -> & Hitems & Hall & Hmax).
    assert (nums !! j = Some (x + Z.of_nat (j - i))%Z) as Hj
      by (rewrite <- (Hvals (j - i)) by lia; f_equal; lia).
    exists (Range x (x + Z.of_nat (j - i)) :: items). split_and!.
    + rewrite (element_text_Some _ _ _ Hsafe Hx),
        (element_text_Some _ _ _ Hsafe Hj).
      cbn [map concat item_text]. by rewrite <- !app_assoc.
    + unfold values in *. simpl. rewrite Hitems, Hdrop. f_equal. f_equal. lia.
    + constructor; [simpl; lia|done].
    + apply maximal_cons; [|done]. intros rest Hrest.
      rewrite Hitems in Hrest.
      assert (nums !! (j + 1) = Some (x + Z.of_nat (j - i) + 1)%Z) as Hnext.
      { rewrite <- (Nat.add_0_r (j + 1)), <- lookup_drop. by rewrite Hrest. }
      rewrite (continues_safe _ _ _ _ (Forall_lookup_1 _ _ _ _ Hsafe Hj) Hj Hnext)
        in Hstop.
      by rewrite bool_decide_eq_true_2 in Hstop.
  - destruct (IH nums (i + 1) (result ++ element_text nums i ++ js ",")
                Hsafe ltac:(lia)) as (items & -> & Hitems & Hall & Hmax).
    exists (Single x :: items). split_and!.
    + rewrite (element_text_Some _ _ _ Hsafe Hx).
      cbn [map concat item_text]. by rewrite <- !app_assoc.
    + unfold values in *. simpl. rewrite Hitems.
      rewrite Nat.add_1_r. by rewrite (drop_S _ _ _ Hx).
    + by constructor.
    + apply maximal_cons; [|done]. intros rest Hrest.
      rewrite Hitems in Hrest.
      assert (nums !! (i + 1) = Some (x + 1)%Z) as H1.
      { rewrite <- (Nat.add_0_r (i + 1)), <- lookup_drop. by rewrite Hrest. }
      assert (nums !! (i + 1 + 1) = Some (x + 2)%Z) as H2.
      { rewrite <- lookup_drop. by rewrite Hrest. }
      assert (continues nums i = true) as Hc1.
      { rewrite (continues_safe _ _ _ _ (Forall_lookup_1 _ _ _ _ Hsafe Hx) Hx H1).
        by apply bool_decide_eq_true_2. }
      assert (continues nums (i + 1) = true) as Hc2.
      { rewrite (continues_safe _ _ _ _ (Forall_lookup_1 _ _ _ _ Hsafe H1) H1 H2).
        apply bool_decide_eq_true_2. lia. }
      destruct (decide (j = i)) as [->|Hne]; [congruence|].
      destruct (decide (j = i + 1)) as [->|Hne']; [congruence|]. lia.
Qed.

Lemma drop_last_comma (l : list jsstring) :
  slice (concat (map (λ s, s ++ js ",") l)) 0
        (length (concat (map (λ s, s ++ js ",") l)) - 1)
  = BracesSpec.join_commas l.
Proof.
  unfold slice. rewrite drop_0, Nat.sub_0_r.
  induction l as [|a [|b l] IH].
  - done.
  - simpl. rewrite app_nil_r, length_app. simpl.
    rewrite take_app_length'; [done|lia].
  - remember (b :: l) as l' eqn:Hl'.
    change (concat (map (λ s, s ++ js ",") (a :: l')))
      with ((a ++ js ",") ++ concat (map (λ s, s ++ js ",") l')).
    assert (0 < length (concat (map (λ s : jsstring, s ++ js ",") l'))) as Hpos.
    { subst l'. simpl. rewrite !length_app. simpl. lia. }
    rewrite length_app, take_app_ge by lia.
    replace (length (a ++ js ",") + length (concat (map (λ s : jsstring, s ++ js ",") l'))
             - 1 - length (a ++ js ","))
      with (length (concat (map (λ s : jsstring, s ++ js ",") l')) - 1) by lia.
    rewrite IH. subst l'. by rewrite <- app_assoc.
Qed.

(** X16. For every list of safe integers (those of absolute value
    below [2^53], which doubles hold one by one), [extractRanges nums]
    returns items joined by commas: single integers and ranges [a-b], in
    decimal notation.  Read back, the items give exactly [nums] (a range
    standing for [a, a+1, ..., b]); every range stands for more than two
    values; and no item could have been a longer range (no single [x] is
    followed by [x+1, x+2], no range ending at [b] is followed by
    [b+1]). *)
Theorem extractRanges_items (nums : list Z) :
  Forall safe_integer nums →
  ∃ items,
    extractRanges nums = Normal (BracesSpec.join_commas (map item_text items)) ∧
    values items = nums ∧ Forall long_range items ∧ maximal items.
Proof.
  intros Hsafe. unfold extractRanges.
  destruct (ranges_loop_spec (length nums) nums 0 [] Hsafe ltac:(lia))
    as (items & -> & Hvalues & Hlong & Hmax).
  exists items. split_and!; [|done..].
  simpl. rewrite <- (map_map item_text (λ s, s ++ js ",")).
  by rewrite drop_last_comma.
Qed.

Lemma extractRanges_items_witness :
  Forall safe_integer [-3; -2; -1; 0; 7; 9007199254740990; 9007199254740991]%Z ∧
  ∃ items,
    extractRanges [-3; -2; -1; 0; 7; 9007199254740990; 9007199254740991]%Z
      = Normal (BracesSpec.join_commas (map item_text items)) ∧
    values items = [-3; -2; -1; 0; 7; 9007199254740990; 9007199254740991]%Z ∧
    Forall long_range items ∧ maximal items.
Proof.
  assert (Hsafe : Forall safe_integer
            [-3; -2; -1; 0; 7; 9007199254740990; 9007199254740991]%Z)
    by (repeat apply Forall_cons_2; [..|apply Forall_nil_2];
        unfold safe_integer; lia).
  split; [exact Hsafe|]. exact (extractRanges_items _ Hsafe).
Defined.

(** The documented examples. *)
Example extractRanges_doc :
  extractRanges [0; 1; 2; 5; 7; 8; 9]%Z = Normal (js "0-2,5,7-9") ∧
  extractRanges [1; 2; 4; 5]%Z = Normal (js "1,2,4,5") ∧
  extractRanges [0; 1; 2; 3; 4; 5]%Z = Normal (js "0-5") ∧
  extractRanges [] = Normal (js "").
Proof. by vm_compute. Qed.

(** Beyond the safe integers the sum [nums[j] + 1] is rounded and large
    numbers print with an exponent: equal numbers then count as
    successive, and the text is no longer the decimal notation. *)
Example extractRanges_beyond_safe :
  extractRanges [2 ^ 53; 2 ^ 53; 2 ^ 53]%Z
    = Normal (js "9007199254740992-9007199254740992") ∧
  extractRanges [10 ^ 21]%Z = Normal (js "1e+21") ∧
  extractRanges [2 ^ 60; 2 ^ 70]%Z
    = Normal (js "1152921504606847000,1.1805916207174113e+21").
Proof. by vm_compute. Qed.

End RangesFacts.

(** ** Facts about canDominoesMakeRow *)

Module DominoesFacts.
Import Dominoes DominoesSpec.

(** *** The map operations *)

Lemma get_None (g : graph) k : get g k = None ↔ k ∉ g.*1.
Proof.
  induction g as [|[k' l] g IH]; simpl.
  - split; [intros _; apply not_elem_of_nil|done].
  - rewrite not_elem_of_cons. case_bool_decide; [|rewrite IH];
      intuition congruence.
Qed.

Lemma get_Some_key (g : graph) k l : get g k = Some l → k ∈ g.*1.
Proof.
  intros H. destruct (decide (k ∈ g.*1)) as [|Hn]; [done|].
  apply get_None in Hn. congruence.
Qed.

Lemma get_set (g : graph) k v u :
  get (set g k v) u = if bool_decide (u = k) then Some v else get g u.
Proof.
  induction g as [|[k' l] g IH]; simpl.
  - repeat case_bool_decide; simplify_eq; done.
  - repeat (case_bool_decide; simpl); simplify_eq; try done.
    all: rewrite ?IH; by repeat case_bool_decide.
Qed.

Lemma get_push (g : graph) k x u :
  get (push g k x) u
  = (λ l, if bool_decide (u = k) then l ++ [x] else l) <$> get g u.
Proof.
  induction g as [|[k' l] g IH]; simpl; [done|].
  repeat (case_bool_decide; simpl); simplify_eq; try done.
  all: rewrite ?IH; repeat case_bool_decide; try done.
  all: by destruct (get g u).
Qed.

Lemma keys_set_new (g : graph) k v : get g k = None → (set g k v).*1 = g.*1 ++ [k].
Proof.
  induction g as [|[k' l] g IH]; cbn [get set]; [done|].
  case_bool_decide; [done|]. intros Hg.
  rewrite !fmap_cons, IH by done. done.
Qed.

Lemma keys_push (g : graph) k x : (push g k x).*1 = g.*1.
Proof.
  induction g as [|[k' l] g IH]; cbn [push]; [done|].
  case_bool_decide; rewrite !fmap_cons; [done|]. by rewrite IH.
Qed.

Lemma get_ensure (g : graph) k u :
  get (ensure g k) u =
    match get g u with
    | Some l => Some l
    | None => if bool_decide (u = k) then Some [] else None
    end.
Proof.
  unfold ensure, has. destruct (get g k) as [l|] eqn:Hk.
  - destruct (get g u) eqn:Hu; [done|]. case_bool_decide; congruence.
  - rewrite get_set. case_bool_decide as E; [subst; by rewrite Hk|].
    by destruct (get g u).
Qed.

Lemma keys_ensure (g : graph) k :
  (ensure g k).*1 = if has g k then g.*1 else g.*1 ++ [k].
Proof.
  unfold ensure, has. destruct (get g k) eqn:Hk; [done|].
  by apply keys_set_new.
Qed.

Lemma add_domino_ensure g a b :
  add_domino g (a, b) = push (push (ensure (ensure g a) b) a b) b a.
Proof. reflexivity. Qed.

Lemma get_add_domino g a b u :
  get (add_domino g (a, b)) u =
    match get g u with
    | Some l => Some (l ++ (if bool_decide (u = a) then [b] else [])
                         ++ (if bool_decide (u = b) then [a] else []))
    | None =>
        if bool_decide (u = a ∨ u = b)
        then Some ((if bool_decide (u = a) then [b] else [])
                     ++ (if bool_decide (u = b) then [a] else []))
        else None
    end.
Proof.
  rewrite add_domino_ensure, !get_push, !get_ensure.
  destruct (get g u) as [l|]; simpl.
  - repeat case_bool_decide; simpl; by rewrite ?app_nil_r, <- ?app_assoc.
  - repeat (case_bool_decide; simpl); simplify_eq; try done; intuition (subst; congruence).
Qed.

Lemma keys_add_domino g a b :
  ∃ new, (add_domino g (a, b)).*1 = g.*1 ++ new ∧
    (∀ u, u ∈ new ↔ (u = a ∨ u = b) ∧ u ∉ g.*1) ∧ NoDup new.
Proof.
  rewrite add_domino_ensure, !keys_push, !keys_ensure.
  unfold has. rewrite get_ensure.
  destruct (get g a) as [la|] eqn:Ha; destruct (get g b) as [lb|] eqn:Hb;
    try apply get_Some_key in Ha as Ha'; try apply get_Some_key in Hb as Hb';
    try apply get_None in Ha as Ha'; try apply get_None in Hb as Hb'.
  - exists []. rewrite app_nil_r. split_and!; [done| |constructor].
    intros u. rewrite elem_of_nil. intuition (subst; congruence).
  - case_bool_decide; [congruence|].
    exists [b]. split_and!; [done| |apply NoDup_singleton].
    intros u. rewrite list_elem_of_singleton. intuition (subst; congruence).
  - exists [a]. split_and!; [done| |apply NoDup_singleton].
    intros u. rewrite list_elem_of_singleton. intuition (subst; congruence).
  - case_bool_decide as Hab.
    + subst b. exists [a]. split_and!; [done| |apply NoDup_singleton].
      intros u. rewrite list_elem_of_singleton. intuition (subst; congruence).
    + exists [a; b]. rewrite <- app_assoc. split_and!; [done| |].
      * intros u. rewrite !elem_of_cons, elem_of_nil. intuition (subst; congruence).
      * apply NoDup_cons. split; [|apply NoDup_singleton].
        rewrite list_elem_of_singleton. congruence.
Qed.

(** *** The map of a list of tiles *)

Lemma ends_snoc ds a b : ends (ds ++ [(a, b)]) = ends ds ++ [a; b].
Proof. unfold ends. rewrite flat_map_app. simpl. done. Qed.

Lemma occurrences_snoc ds a b u :
  occurrences (ds ++ [(a, b)]) u =
  occurrences ds u + length ((if bool_decide (u = a) then [b] else [])
                               ++ (if bool_decide (u = b) then [a] else [])).
Proof.
  unfold occurrences. rewrite ends_snoc, filter_app, length_app. f_equal.
  rewrite !filter_cons, filter_nil.
  repeat (case_decide; case_bool_decide; simplify_eq; simpl); done.
Qed.

Lemma linked_snoc ds a b u w :
  linked (ds ++ [(a, b)]) u w ↔
  linked ds u w ∨ (u = a ∧ w = b) ∨ (u = b ∧ w = a).
Proof.
  unfold linked. split.
  - intros (d & [Hd| ->%list_elem_of_singleton]%elem_of_app & H); [left; eauto|].
    by right.
  - intros [(d & Hd & H)|H].
    + exists d. split; [apply elem_of_app; by left|done].
    + exists (a, b). split; [apply elem_of_app; right; by apply list_elem_of_singleton|done].
Qed.

Lemma linked_ends ds u w : linked ds u w → u ∈ ends ds ∧ w ∈ ends ds.
Proof.
  intros ([a b] & Hd & H). unfold ends.
  assert (a ∈ flat_map (λ d : domino, [d.1; d.2]) ds ∧
          b ∈ flat_map (λ d : domino, [d.1; d.2]) ds) as [Ha Hb].
  { split; apply list_elem_of_In, in_flat_map; exists (a, b);
      (split; [by apply list_elem_of_In|simpl; auto]). }
  simpl in H. destruct H as [[-> ->]|[-> ->]]; done.
Qed.

Lemma occurrences_not_end ds u : u ∉ ends ds → occurrences ds u = 0.
Proof.
  unfold occurrences. intros Hu.
  destruct (filter (λ x, x = u) (ends ds)) as [|x l] eqn:E; [done|].
  assert (x ∈ filter (λ x, x = u) (ends ds)) as Hx by (rewrite E; left).
  apply list_elem_of_filter in Hx as [-> Hx]. done.
Qed.

Lemma build_graph_snoc ds d :
  build_graph (ds ++ [d]) = add_domino (build_graph ds) d.
Proof. unfold build_graph. by rewrite foldl_snoc. Qed.

Lemma graph_inv_snoc ds g a b :
  graph_inv ds g → graph_inv (ds ++ [(a, b)]) (add_domino g (a, b)).
Proof.
  intros [Hnd Hget]. split.
  - destruct (keys_add_domino g a b) as (new & -> & Hnew & Hndnew).
    apply NoDup_app. split_and!; [done| |done].
    intros u Hu [_ Hu']%Hnew. done.
  - intros u. rewrite get_add_domino. specialize (Hget u).
    assert (∀ x, x ∈ ends (ds ++ [(a, b)]) ↔ x ∈ ends ds ∨ x = a ∨ x = b) as Hends.
    { intros x. rewrite ends_snoc, elem_of_app, !elem_of_cons, elem_of_nil. tauto. }
    assert (∀ w, w ∈ (if bool_decide (u = a) then [b] else [])
                       ++ (if bool_decide (u = b) then [a] else [])
                 ↔ (u = a ∧ w = b) ∨ (u = b ∧ w = a)) as Hnew.
    { intros w. rewrite elem_of_app.
      repeat case_bool_decide; rewrite ?list_elem_of_singleton, ?elem_of_nil;
        intuition congruence. }
    destruct (get g u) as [l|].
    + destruct Hget as (Hend & Hlen & Hmem). split_and!.
      * apply Hends. by left.
      * by rewrite occurrences_snoc, length_app, Hlen.
      * intros w. rewrite linked_snoc, elem_of_app, Hmem, Hnew. done.
    + destruct (decide (u = a ∨ u = b)) as [Hab|Hab];
        [rewrite (bool_decide_eq_true_2 (u = a ∨ u = b)) by done
        |rewrite (bool_decide_eq_false_2 (u = a ∨ u = b)) by done].
      * split_and!.
        -- apply Hends. by right.
        -- by rewrite occurrences_snoc, occurrences_not_end.
        -- intros w. rewrite linked_snoc, Hnew.
           assert (¬ linked ds u w) by (by intros [? _]%linked_ends). tauto.
      * rewrite Hends. tauto.
Qed.

Lemma graph_inv_build ds : graph_inv ds (build_graph ds).
Proof.
  induction ds as [|[a b] ds IH] using rev_ind.
  - split; [constructor|]. intros u. apply not_elem_of_nil.
  - rewrite build_graph_snoc. by apply graph_inv_snoc.
Qed.

(** The first key is the first value of the first tile. *)
Lemma keys_build_head a b ds :
  ∃ keys, (build_graph ((a, b) :: ds)).*1 = a :: keys.
Proof.
  induction ds as [|[a' b'] ds IH] using rev_ind.
  - change (build_graph [(a, b)]) with (add_domino [] (a, b)).
    rewrite add_domino_ensure, !keys_push, keys_ensure.
    change (ensure [] a) with [(a, @nil Z)].
    destruct (has [(a, [])] b); simpl; eauto.
  - rewrite app_comm_cons, build_graph_snoc.
    destruct IH as [keys IH].
    destruct (keys_add_domino (build_graph ((a, b) :: ds)) a' b')
      as (new & -> & _). rewrite IH. simpl. eauto.
Qed.

(** *** Odd degrees *)

Lemma values_get (g : graph) :
  NoDup g.*1 → g.*2 = (λ k, default [] (get g k)) <$> g.*1.
Proof.
  induction g as [|[k l] g IH]; [done|].
  rewrite !fmap_cons. intros [Hk Hnd]%NoDup_cons. cbn [fst snd get].
  rewrite bool_decide_eq_true_2 by done. simpl. f_equal.
  rewrite IH by done. apply list_fmap_ext. intros i k' Hk'.
  rewrite bool_decide_eq_false_2; [done|].
  intros ->. apply Hk. by eapply list_elem_of_lookup_2.
Qed.

Lemma length_filter_fmap {A B} (P : B → Prop) `{∀ x, Decision (P x)}
    (f : A → B) (l : list A) :
  length (filter P (f <$> l)) = length (filter (λ x, P (f x)) l).
Proof.
  induction l as [|x l IH]; [done|].
  rewrite fmap_cons, !filter_cons. case_decide; simpl; by rewrite IH.
Qed.

Lemma keys_ends ds g u : graph_inv ds g → u ∈ g.*1 ↔ u ∈ ends ds.
Proof.
  intros [_ Hget]. specialize (Hget u).
  destruct (get g u) as [l|] eqn:E.
  - apply get_Some_key in E. tauto.
  - apply get_None in E. tauto.
Qed.

Lemma oddDegrees_build ds : oddDegrees (build_graph ds) = odd_values ds.
Proof.
  pose proof (graph_inv_build ds) as Hinv. destruct (Hinv) as [Hnd Hget].
  unfold oddDegrees, odd_values.
  rewrite values_get, length_filter_fmap by done.
  rewrite (list_filter_iff _ (λ u, occurrences ds u mod 2 = 1)).
  2:{ intros u. specialize (Hget u).
      destruct (get (build_graph ds) u) as [l|]; simpl.
      - destruct Hget as (_ & -> & _). done.
      - by rewrite occurrences_not_end. }
  apply Permutation_length, filter_Permutation, NoDup_Permutation.
  - done.
  - apply NoDup_remove_dups.
  - intros u. rewrite elem_of_remove_dups. by apply keys_ends.
Qed.

(** *** The depth-first search *)

Section search.
Variable g : graph.
Hypothesis neighbours_are_keys : ∀ u w, edge g u w → is_Some (get g w).

Lemma size_unvisited (v : Z) (S S' : gset Z) :
  is_Some (get g v) → v ∉ S → {[v]} ∪ S ⊆ S' →
  size (list_to_set g.*1 ∖ S' : gset Z) < size (list_to_set g.*1 ∖ S : gset Z).
Proof.
  intros [l Hv] HvS Hsub. apply subset_size.
  apply get_Some_key in Hv. split.
  - apply difference_mono_l. intros x Hx. apply Hsub. by apply elem_of_union_r.
  - intros Hsup. assert (v ∈ (list_to_set g.*1 ∖ S' : gset Z)) as Hin.
    { apply Hsup. apply elem_of_difference. split; [|done].
      by apply elem_of_list_to_set. }
    apply elem_of_difference in Hin as [_ Hin]. apply Hin, Hsub.
    by apply elem_of_union_l, elem_of_singleton.
Qed.

Lemma dfs_spec fuel : ∀ v (S X : gset Z),
  is_Some (get g v) → v ∉ S →
  size (list_to_set g.*1 ∖ S : gset Z) ≤ fuel →
  closed_except g X S →
  ∃ S', dfs fuel g v S = Normal S' ∧ S ⊆ S' ∧ v ∈ S' ∧
    closed_except g X S' ∧ ∀ u, u ∈ S' → u ∈ S ∨ rtc (edge g) v u.
Proof.
  induction fuel as [|fuel IH]; intros v S X Hkey HvS Hsize Hclosed.
  { pose proof (size_unvisited v S ({[v]} ∪ S) Hkey HvS ltac:(done)). lia. }
  destruct Hkey as [neighs Hneighs]. simpl. rewrite Hneighs.
  assert (∀ ns (Sk : gset Z),
    {[v]} ∪ S ⊆ Sk → (∀ w, w ∈ ns → edge g v w) →
    closed_except g (X ∪ {[v]}) Sk →
    (∀ u, u ∈ Sk → u ∈ S ∨ rtc (edge g) v u) →
    ∃ S', visit (dfs fuel g) ns Sk = Normal S' ∧ Sk ⊆ S' ∧
      (∀ w, w ∈ ns → w ∈ S') ∧ closed_except g (X ∪ {[v]}) S' ∧
      ∀ u, u ∈ S' → u ∈ S ∨ rtc (edge g) v u) as Hvisit.
  { induction ns as [|n ns IHns]; intros Sk Hsub Hedges Hcl Hreach; simpl.
    - exists Sk. split_and!; [done..| |done|done].
      intros w Hw. by apply elem_of_nil in Hw.
    - assert (edge g v n) as Hvn by (apply Hedges; left).
      assert (∀ w, w ∈ ns → edge g v w) as Hedges'
        by (intros w Hw; apply Hedges; by right).
      case_bool_decide as Hn.
      + destruct (IHns Sk Hsub Hedges' Hcl Hreach) as (S' & -> & Hsub' & Hin & Hcl' & Hreach').
        exists S'. split_and!; [done..| |done|done].
        intros w [->|Hw]%elem_of_cons; [by apply Hsub'|by apply Hin].
      + destruct (IH n Sk (X ∪ {[v]})) as (S1 & -> & Hsub1 & Hn1 & Hcl1 & Hreach1).
        * by eapply neighbours_are_keys.
        * done.
        * pose proof (size_unvisited v S Sk (ex_intro _ neighs Hneighs) HvS Hsub).
          lia.
        * done.
        * destruct (IHns S1) as (S' & -> & Hsub' & Hin & Hcl' & Hreach').
          -- etrans; done.
          -- done.
          -- done.
          -- intros u [Hu|Hu]%Hreach1; [by apply Hreach|].
             right. by eapply rtc_l.
          -- exists S'. split_and!; [done|by etrans| |done|done].
             intros w [->|Hw]%elem_of_cons; [by apply Hsub'|by apply Hin]. }
  destruct (Hvisit neighs ({[v]} ∪ S)) as (S' & -> & Hsub' & Hin & Hcl' & Hreach').
  - done.
  - intros w Hw. by exists neighs.
  - intros u w [->%elem_of_singleton|Hu]%elem_of_union Hux Huw.
    + destruct Hux. by apply elem_of_union_r, elem_of_singleton.
    + apply elem_of_union_r. eapply Hclosed; [done| |done].
      intros HuX. apply Hux. by apply elem_of_union_l.
  - intros u [->%elem_of_singleton|Hu]%elem_of_union; [by right|by left].
  - exists S'. split_and!; [done| | | |done].
    + intros x Hx. by apply Hsub', elem_of_union_r.
    + by apply Hsub', elem_of_union_l, elem_of_singleton.
    + intros u w Hu HuX Huw. destruct (decide (u = v)) as [->|Hne].
      * destruct Huw as (l & Hl & Hw). rewrite Hneighs in Hl.
        injection Hl as <-. by apply Hin.
      * eapply Hcl'; [done| |done].
        intros [?|?%elem_of_singleton]%elem_of_union; done.
Qed.

(** From the empty set, the search visits exactly what the arrays link
    to the start. *)
Lemma dfs_reachable v :
  NoDup g.*1 → is_Some (get g v) →
  ∃ S', dfs (S (length g.*1)) g v ∅ = Normal S' ∧
    ∀ u, u ∈ S' ↔ rtc (edge g) v u.
Proof.
  intros Hnd Hkey.
  destruct (dfs_spec (S (length g.*1)) v ∅ ∅ Hkey) as (S' & -> & _ & Hv & Hcl & Hreach).
  - apply not_elem_of_empty.
  - etrans; [apply subseteq_size, subseteq_difference_l; reflexivity|].
    rewrite size_list_to_set by done. lia.
  - intros u w Hu. by apply not_elem_of_empty in Hu.
  - exists S'. split; [done|]. intros u. split.
    + intros [Hu|Hu]%Hreach; [by apply not_elem_of_empty in Hu|done].
    + revert u. apply (rtc_ind_r (λ u, u ∈ S')); [done|].
      intros y z _ Hyz Hy. eapply Hcl; [exact Hy|apply not_elem_of_empty|done].
Qed.

End search.

(** *** The result *)

Lemma edge_linked ds u w : edge (build_graph ds) u w ↔ linked ds u w.
Proof.
  destruct (graph_inv_build ds) as [_ Hget]. specialize (Hget u).
  unfold edge. destruct (get (build_graph ds) u) as [l|].
  - destruct Hget as (_ & _ & Hmem). rewrite <- Hmem. split.
    + by intros (l' & [= <-] & Hw).
    + eauto.
  - split; [by intros (l' & ? & _)|]. by intros [? _]%linked_ends.
Qed.

Lemma rtc_edge_linked ds u w :
  rtc (edge (build_graph ds)) u w ↔ rtc (linked ds) u w.
Proof.
  split; induction 1 as [|x y z Hxy _ IH]; try done;
    (eapply rtc_l; [|done]); by apply edge_linked.
Qed.

Lemma linked_sym ds u w : linked ds u w → linked ds w u.
Proof. intros (d & Hd & H). exists d. tauto. Qed.

Lemma rtc_linked_sym ds u w : rtc (linked ds) u w → rtc (linked ds) w u.
Proof.
  induction 1 as [|x y z Hxy _ IH]; [done|].
  eapply rtc_r; [done|]. by apply linked_sym.
Qed.

Lemma forallb_bool_decide {A} (P : A → Prop) `{∀ x, Decision (P x)} (l : list A) :
  forallb (λ x, bool_decide (P x)) l = true ↔ ∀ x, x ∈ l → P x.
Proof.
  rewrite forallb_forall. split.
  - intros Hall x Hx. apply (bool_decide_eq_true_1 (P x)).
    by apply Hall, list_elem_of_In.
  - intros Hall x Hx. apply bool_decide_eq_true_2.
    by apply Hall, list_elem_of_In.
Qed.

(** What the function computes. *)
Lemma canDominoesMakeRow_outcome (dominoes : list domino) :
  ∃ b, canDominoesMakeRow dominoes = Normal b ∧
    (b = true ↔
     dominoes = [] ∨
     ((odd_values dominoes = 0 ∨ odd_values dominoes = 2) ∧
      ∀ u w, u ∈ ends dominoes → w ∈ ends dominoes → rtc (linked dominoes) u w)).
Proof.
  destruct dominoes as [|[a b] rest].
  { exists true. split; [done|]. split; [by left|done]. }
  set (ds := (a, b) :: rest).
  unfold canDominoesMakeRow. cbv zeta.
  rewrite bool_decide_eq_false_2 by done.
  rewrite oddDegrees_build.
  destruct (bool_decide (odd_values ds ≠ 0) && bool_decide (odd_values ds ≠ 2)) eqn:Hodd.
  { apply andb_prop in Hodd as [H0%bool_decide_eq_true H2%bool_decide_eq_true].
    exists false. split; [done|]. split; [done|].
    intros [?|[[?|?] _]]; done. }
  assert (odd_values ds = 0 ∨ odd_values ds = 2) as Hodd'.
  { apply andb_false_iff in Hodd as [H|H]; apply bool_decide_eq_false in H; lia. }
  pose proof (graph_inv_build ds) as Hinv. destruct (Hinv) as [Hnd Hget].
  destruct (keys_build_head a b rest) as [keys Hkeys]. fold ds in Hkeys.
  rewrite Hkeys.
  assert (a ∈ (build_graph ds).*1) as Ha by (rewrite Hkeys; left).
  destruct (dfs_reachable (build_graph ds)) with (v := a) as (visited & Hdfs & Hvisited).
  - intros u w [_ Hw]%edge_linked%linked_ends.
    apply (keys_ends ds _ w Hinv) in Hw.
    destruct (get (build_graph ds) w) eqn:E; [done|].
    by apply get_None in E.
  - done.
  - destruct (get (build_graph ds) a) eqn:E; [done|]. by apply get_None in E.
  - rewrite Hkeys in Hdfs. rewrite Hdfs.
    eexists. split; [done|].
    rewrite forallb_bool_decide. rewrite <- Hkeys.
    split.
    + intros Hall. right. split; [done|].
      intros u w Hu%(keys_ends ds _ u Hinv) Hw%(keys_ends ds _ w Hinv).
      apply Hall, Hvisited, rtc_edge_linked in Hu, Hw.
      etrans; [by apply rtc_linked_sym|done].
    + intros [?|[_ Hall]]; [done|].
      intros u Hu%(keys_ends ds _ u Hinv).
      apply Hvisited, rtc_edge_linked, Hall; [|done].
      by apply (keys_ends ds _ a Hinv).
Qed.

(** *** Order and orientation of the tiles *)

Lemma elem_of_ends_occurrences ds u : u ∈ ends ds ↔ occurrences ds u ≠ 0.
Proof.
  split.
  - intros Hu Hocc. unfold occurrences in Hocc.
    assert (u ∈ filter (λ x, x = u) (ends ds)) as Hin
      by (by apply list_elem_of_filter).
    destruct (filter (λ x, x = u) (ends ds)); [by apply elem_of_nil in Hin|done].
  - intros Hocc. destruct (decide (u ∈ ends ds)) as [|Hn]; [done|].
    by apply occurrences_not_end in Hn.
Qed.

Lemma rtc_iff {A} (R1 R2 : relation A) x y :
  (∀ a b, R1 a b ↔ R2 a b) → rtc R1 x y ↔ rtc R2 x y.
Proof.
  intros HR. split; induction 1 as [|a b c Hab _ IH]; try done;
    (eapply rtc_l; [|done]); by apply HR.
Qed.

(** Two lists of tiles that show every value equally often and link the
    same values get the same answer. *)
Lemma canDominoesMakeRow_same ds ds' :
  (ds = [] ↔ ds' = []) →
  (∀ u, occurrences ds u = occurrences ds' u) →
  (∀ u w, linked ds u w ↔ linked ds' u w) →
  canDominoesMakeRow ds = canDominoesMakeRow ds'.
Proof.
  intros Hnil Hocc Hlink.
  destruct (canDominoesMakeRow_outcome ds) as (b & -> & Hb).
  destruct (canDominoesMakeRow_outcome ds') as (b' & -> & Hb').
  assert (∀ u, u ∈ ends ds ↔ u ∈ ends ds') as Hends
    by (intros u; by rewrite !elem_of_ends_occurrences, Hocc).
  assert (odd_values ds = odd_values ds') as Hodd.
  { unfold odd_values.
    rewrite (list_filter_iff _ (λ u, occurrences ds' u mod 2 = 1))
      by (intros u; by rewrite Hocc).
    apply Permutation_length, filter_Permutation, NoDup_Permutation;
      [apply NoDup_remove_dups..|].
    intros u. by rewrite !elem_of_remove_dups. }
  f_equal. apply eq_true_iff_eq. rewrite Hb, Hb', Hnil, Hodd.
  apply or_iff_compat_l, and_iff_compat_l.
  split; intros Hall u w Hu Hw.
  - apply (rtc_iff _ _ _ _ Hlink), Hall; by apply Hends.
  - apply (rtc_iff _ _ _ _ Hlink), Hall; by apply Hends.
Qed.

Lemma occurrences_Permutation ends1 ends2 (u : Z) :
  ends1 ≡ₚ ends2 →
  length (filter (λ x, x = u) ends1) = length (filter (λ x, x = u) ends2).
Proof. intros H. by apply Permutation_length, filter_Permutation. Qed.

(** X17. [canDominoesMakeRow] returns, for every list of tiles, and it
    returns [true] exactly when the list is empty, or when the number of
    values that occur an odd number of times on the tiles (a double
    counting twice) is 0 or 2 and any two values on the tiles are linked
    through a chain of tiles. *)
Theorem canDominoesMakeRow_spec (dominoes : list domino) :
  ∃ b, canDominoesMakeRow dominoes = Normal b ∧
    (b = true ↔
     dominoes = [] ∨
     ((odd_values dominoes = 0 ∨ odd_values dominoes = 2) ∧
      ∀ u w, u ∈ ends dominoes → w ∈ ends dominoes → rtc (linked dominoes) u w)).
Proof. apply canDominoesMakeRow_outcome. Qed.

(** X18. The answer of [canDominoesMakeRow] does not depend on the order
    in which the tiles are given. *)
Theorem canDominoesMakeRow_Permutation (dominoes dominoes' : list domino) :
  dominoes ≡ₚ dominoes' →
  canDominoesMakeRow dominoes = canDominoesMakeRow dominoes'.
Proof.
  intros Hperm. apply canDominoesMakeRow_same.
  - split; intros ->; [by apply Permutation_nil_l in Hperm
                      |by apply Permutation_nil_r in Hperm].
  - intros u. apply occurrences_Permutation. unfold ends.
    by apply Permutation_flat_map.
  - intros u w. unfold linked. by setoid_rewrite Hperm.
Qed.

Lemma canDominoesMakeRow_Permutation_witness :
  [(1, 2); (3, 1); (2, 2)]%Z ≡ₚ [(2, 2); (1, 2); (3, 1)]%Z ∧
  canDominoesMakeRow [(1, 2); (3, 1); (2, 2)]%Z
  = canDominoesMakeRow [(2, 2); (1, 2); (3, 1)]%Z.
Proof.
  assert (H : [(1, 2); (3, 1); (2, 2)]%Z ≡ₚ [(2, 2); (1, 2); (3, 1)]%Z).
  { change [(2, 2); (1, 2); (3, 1)]%Z with ([(2, 2)] ++ [(1, 2); (3, 1)])%Z.
    change [(1, 2); (3, 1); (2, 2)]%Z with ([(1, 2); (3, 1)] ++ [(2, 2)])%Z.
    apply Permutation_app_comm. }
  split; [exact H|exact (canDominoesMakeRow_Permutation _ _ H)].
Defined.

(** X19. Turning a tile round, [[a, b]] into [[b, a]], does not change
    the answer of [canDominoesMakeRow]. *)
Theorem canDominoesMakeRow_flip (before after : list domino) (a b : Z) :
  canDominoesMakeRow (before ++ (a, b) :: after)
  = canDominoesMakeRow (before ++ (b, a) :: after).
Proof.
  apply canDominoesMakeRow_same.
  - split; intros H; by destruct before.
  - intros u. apply occurrences_Permutation. unfold ends.
    rewrite !flat_map_app. simpl. apply Permutation_app_head.
    apply (Permutation_swap b a).
  - intros u w. unfold linked. split.
    + intros (d & [Hd|[->|Hd]%elem_of_cons]%elem_of_app & H).
      * exists d. split; [apply elem_of_app; by left|done].
      * exists (b, a). split; [apply elem_of_app; right; left|simpl in *; tauto].
      * exists d. split; [apply elem_of_app; right; by right|done].
    + intros (d & [Hd|[->|Hd]%elem_of_cons]%elem_of_app & H).
      * exists d. split; [apply elem_of_app; by left|done].
      * exists (a, b). split; [apply elem_of_app; right; left|simpl in *; tauto].
      * exists d. split; [apply elem_of_app; right; by right|done].
Qed.

(** The documented examples. *)
Example canDominoesMakeRow_doc :
  canDominoesMakeRow [(0, 1); (1, 1)]%Z = Normal true ∧
  canDominoesMakeRow [(1, 1); (2, 2); (1, 5); (5, 6); (6, 3)]%Z = Normal false ∧
  canDominoesMakeRow [(1, 3); (2, 3); (1, 4); (2, 4); (1, 5); (2, 5)]%Z = Normal true ∧
  canDominoesMakeRow [(0, 0); (0, 1); (1, 1); (0, 2); (1, 2); (2, 2);
                      (0, 3); (1, 3); (2, 3); (3, 3)]%Z = Normal false.
Proof. by vm_compute. Qed.

End DominoesFacts.

(** ** Facts about createCompassPoints *)

Module CompassFacts.
Import Compass CompassSpec.

(** X20. [createCompassPoints] returns 32 points.  Their abbreviations
    are all defined and pairwise distinct; the point half a turn further
    has the opposite abbreviation (N and S exchanged, E and W
    exchanged) and the point at the same angle on the other side of
    north has the mirrored one (E and W exchanged).  The azimuth of
    point [i] is [i] times 11.25, so the azimuths start at 0, grow by
    11.25 and stay below 360. *)
Theorem createCompassPoints_symmetric :
  length createCompassPoints = 32 ∧
  NoDup (abbreviation <$> createCompassPoints) ∧
  ∀ i, i < 32 →
    ∃ p, createCompassPoints !! i = Some p ∧
      is_Some (abbreviation p) ∧
      (∃ q, createCompassPoints !! ((i + 16) mod 32) = Some q ∧
            abbreviation q = opposite <$> abbreviation p) ∧
      (∃ q, createCompassPoints !! ((32 - i) mod 32) = Some q ∧
            abbreviation q = mirror <$> abbreviation p) ∧
      (azimuth p == inject_Z (Z.of_nat i) * (45 # 4))%Q ∧
      (0 <= azimuth p)%Q ∧ (azimuth p < 360)%Q.
Proof.
  split; [reflexivity|]. split.
  - apply (bool_decide_unpack _). by vm_compute.
  - intros i Hi.
    do 32 (destruct i as [|i];
           [eexists; split; [reflexivity|];
            split_and!; [by eexists|eexists; split; reflexivity..|
                         reflexivity|discriminate|reflexivity]|]).
    lia.
Qed.

End CompassFacts.
